(** * AIConcert: the command/response correlation core

    A shallow embedding of [api/app/clients/tools/structured/AIConcert.js]:
    the pending-command table [wsCallbacks], the socket handler [onmessage],
    the deadline callback armed by [executeCommand], and the connection
    getter [getWebSocketConnection].  JavaScript's run-to-completion event
    loop is modelled by one state transformer per callback; an exception is
    a [Throw] completion of a small state-and-exception monad. *)

From Stdlib Require Import Ascii DecimalString.
From stdpp Require Import gmap strings list fin_maps pretty.

Local Set Warnings "-register-all".

(** ** JavaScript values, as far as [JSON.parse] can produce them *)

Module JS.

(** The one-character string written ['\n'] in the source. *)
Definition LF : string := String "010"%char "".

(** Thrown values.  Only the message of an [Error] is ever inspected. *)
Inductive exn :=
| Error (message : string)
| TypeError
| SyntaxError.

Inductive value {number : Type} :=
| VUndefined
| VNull
| VBool (b : bool)
| VNumber (n : number)
| VString (s : string)
| VArray (items : list value)
| VObject (props : list (string * value)).
Arguments value : clear implicits.

(** [Array.prototype.join]: the empty array gives the empty string, and the
    element conversion [f] is applied left to right; [None] stands for an
    element whose conversion throws. *)
Definition join_with {A} (f : A → option string) (sep : string)
    : list A → option string :=
  fix go l :=
    match l with
    | [] => Some ""
    | x :: rest =>
        match rest with
        | [] => f x
        | _ => s ← f x; r ← go rest; Some (s +:+ sep +:+ r)
        end
    end.

Section conversions.
Context {number : Type} (Number_toString : number → string)
        (Number_truthy : number → bool).

(** The abstract operation ToString on a parsed value.  An object made by
    [JSON.parse] inherits [Object.prototype.toString] unless it has an own
    property of that name, which is then not callable, so that the
    conversion throws a TypeError ([None]). *)
Fixpoint ToString (v : value number) : option string :=
  match v with
  | VUndefined => Some "undefined"
  | VNull => Some "null"
  | VBool b => Some (if b then "true" else "false")
  | VNumber n => Some (Number_toString n)
  | VString s => Some s
  | VArray items =>
      join_with (λ x, match x with
                      | VUndefined | VNull => Some ""
                      | _ => ToString x
                      end) "," items
  | VObject props =>
      if bool_decide ("toString" ∈ props.*1) then None
      else Some "[object Object]"
  end.

(** The conversion [join] applies to each element. *)
Definition join_element (x : value number) : option string :=
  match x with
  | VUndefined | VNull => Some ""
  | _ => ToString x
  end.

(** [array.join(sep)] on an array of parsed values. *)
Definition Array_join (l : list (value number)) (sep : string)
    : option string :=
  join_with join_element sep l.

Definition ToBoolean (v : value number) : bool :=
  match v with
  | VUndefined | VNull => false
  | VBool b => b
  | VNumber n => Number_truthy n
  | VString s => bool_decide (s ≠ "")
  | VArray _ | VObject _ => true
  end.

(** [v === s] for a string literal [s]. *)
Definition strict_eq_string (v : value number) (s : string) : bool :=
  match v with
  | VString t => bool_decide (t = s)
  | _ => false
  end.

(** Own-property lookup in the property list of an object. *)
Fixpoint own_property (props : list (string * value number)) (key : string)
    : value number :=
  match props with
  | [] => VUndefined
  | (k, v) :: rest => if bool_decide (k = key) then v
                      else own_property rest key
  end.

(** [v.key] for the keys [id], [type] and [content], which no built-in
    prototype defines: a property access on [null] or [undefined] throws,
    on any other non-object it yields [undefined]. *)
Definition Get (v : value number) (key : string) : option (value number) :=
  match v with
  | VUndefined | VNull => None
  | VObject props => Some (own_property props key)
  | _ => Some VUndefined
  end.
End conversions.

(** [!s] negated, for a string that may be absent. *)
Definition truthy_string (s : option string) : bool :=
  match s with
  | Some t => bool_decide (t ≠ "")
  | None => false
  end.

End JS.
Export JS.

(** ** What the host provides

    The number type with its conversions, [JSON.parse] and [JSON.stringify],
    and the [send] method of the [ws] package are not code of this
    repository; the development is parametric in them. *)

Inductive ReadyState := CONNECTING | OPEN | CLOSING | CLOSED.

Class Runtime := {
  number : Type;
  Number_toString : number → string;
  Number_truthy : number → bool;
  (** [None]: the text is not JSON and [JSON.parse] throws a SyntaxError. *)
  JSON_parse : string → option (value number);
  JSON_stringify : value number → string;
  (** [Some msg]: [send] on a socket in that state throws [Error(msg)]. *)
  send_error : ReadyState → option string;
  (** The decimal rendering of a number has at least one character. *)
  Number_toString_nonempty : ∀ n, Number_toString n ≠ "";
}.

(** ** The state of one tool instance and of its surroundings *)

(** A socket is named by its position in the list of sockets constructed so
    far, a promise made by [executeCommand] by its allocation number. *)
Abbreviation socket := nat.
Abbreviation promise := nat.

Section AIConcert.
Context `{RT : Runtime}.

Record WebSocket := {
  url : string;
  readyState : ReadyState;
  sent : list string;
}.

(** The object stored in [wsCallbacks] under a message id.  [resolve] and
    [reject] are the two handles of the same promise. *)
Record callback := {
  output : list (value number);
  complete : bool;
  resolve : promise;
  reject : promise;
}.

(** A call of one of the two handles of a promise. *)
Inductive settle :=
| Resolve (p : promise) (result : string)
| Reject (p : promise) (reason : exn).

Inductive log_entry :=
| Debug (text : string)
| LogError (text : string).

(** An armed single-shot timer: the [messageId] and the [resolve] handle
    captured by the closure given to [setTimeout]. *)
Record timer := {
  timer_messageId : string;
  timer_resolve : promise;
}.

Record AIConcert := {
  (* fields of the instance *)
  wsUrl : string;
  authToken : option string;
  wsConnection : option socket;
  wsCallbacks : gmap string callback;
  (* surroundings *)
  sockets : list WebSocket;
  promises : nat;
  settled : list settle;
  timers : list timer;
  logged : list log_entry;
}.

(** The instance as its constructor leaves it. *)
Definition constructed (ws_url : string) (token : option string)
    : AIConcert :=
  {| wsUrl := ws_url; authToken := token;
     wsConnection := None; wsCallbacks := ∅;
     sockets := []; promises := 0; settled := []; timers := [];
     logged := [] |}.

Definition set_wsConnection (c : option socket) (st : AIConcert) :=
  {| wsUrl := wsUrl st; authToken := authToken st;
     wsConnection := c; wsCallbacks := wsCallbacks st;
     sockets := sockets st; promises := promises st;
     settled := settled st; timers := timers st; logged := logged st |}.

Definition set_wsCallbacks (m : gmap string callback) (st : AIConcert) :=
  {| wsUrl := wsUrl st; authToken := authToken st;
     wsConnection := wsConnection st; wsCallbacks := m;
     sockets := sockets st; promises := promises st;
     settled := settled st; timers := timers st; logged := logged st |}.

Definition set_sockets (l : list WebSocket) (st : AIConcert) :=
  {| wsUrl := wsUrl st; authToken := authToken st;
     wsConnection := wsConnection st; wsCallbacks := wsCallbacks st;
     sockets := l; promises := promises st;
     settled := settled st; timers := timers st; logged := logged st |}.

Definition set_promises (n : nat) (st : AIConcert) :=
  {| wsUrl := wsUrl st; authToken := authToken st;
     wsConnection := wsConnection st; wsCallbacks := wsCallbacks st;
     sockets := sockets st; promises := n;
     settled := settled st; timers := timers st; logged := logged st |}.

Definition set_settled (l : list settle) (st : AIConcert) :=
  {| wsUrl := wsUrl st; authToken := authToken st;
     wsConnection := wsConnection st; wsCallbacks := wsCallbacks st;
     sockets := sockets st; promises := promises st;
     settled := l; timers := timers st; logged := logged st |}.

Definition set_timers (l : list timer) (st : AIConcert) :=
  {| wsUrl := wsUrl st; authToken := authToken st;
     wsConnection := wsConnection st; wsCallbacks := wsCallbacks st;
     sockets := sockets st; promises := promises st;
     settled := settled st; timers := l; logged := logged st |}.

Definition set_logged (l : list log_entry) (st : AIConcert) :=
  {| wsUrl := wsUrl st; authToken := authToken st;
     wsConnection := wsConnection st; wsCallbacks := wsCallbacks st;
     sockets := sockets st; promises := promises st;
     settled := settled st; timers := timers st; logged := l |}.

(** ** Callbacks as state transformers that may throw *)

Inductive completion (A : Type) :=
| Normal (a : A)
| Throw (e : exn).
Arguments Normal {A} a.
Arguments Throw {A} e.

Definition M (A : Type) : Type := AIConcert → completion A * AIConcert.

Definition ret {A} (a : A) : M A := λ st, (Normal a, st).
Definition throw {A} (e : exn) : M A := λ st, (Throw e, st).
Definition bind {A B} (m : M A) (k : A → M B) : M B :=
  λ st, match m st with
        | (Normal a, st') => k a st'
        | (Throw e, st') => (Throw e, st')
        end.
Definition try_catch {A} (body : M A) (handler : exn → M A) : M A :=
  λ st, match body st with
        | (Normal a, st') => (Normal a, st')
        | (Throw e, st') => handler e st'
        end.
Definition gets {A} (f : AIConcert → A) : M A := λ st, (Normal (f st), st).
Definition modify (f : AIConcert → AIConcert) : M unit :=
  λ st, (Normal tt, f st).
Definition or_throw {A} (e : exn) (o : option A) : M A :=
  match o with
  | Some a => ret a
  | None => throw e
  end.

Notation "'let*' x ':=' m 'in' k" := (bind m (λ x, k))
  (at level 10, x name, m at level 100, k at level 200).
Notation "'do*' m 'in' k" := (bind m (λ _, k))
  (at level 10, m at level 100, k at level 200).

(** The state a callback leaves behind. *)
Definition exec {A} (m : M A) (st : AIConcert) : AIConcert := (m st).2.

(** *** Host operations *)

Definition logger_debug (text : string) : M unit :=
  modify (λ st, set_logged (logged st ++ [Debug text]) st).
Definition logger_error (text : string) : M unit :=
  modify (λ st, set_logged (logged st ++ [LogError text]) st).

Definition call_resolve (p : promise) (result : string) : M unit :=
  modify (λ st, set_settled (settled st ++ [Resolve p result]) st).
Definition call_reject (p : promise) (reason : exn) : M unit :=
  modify (λ st, set_settled (settled st ++ [Reject p reason]) st).

(** [new Promise(...)]: the next allocation number. *)
Definition new_Promise : M promise :=
  λ st, (Normal (promises st), set_promises (S (promises st)) st).

(** [new WebSocket(u)]: a fresh socket, connecting.  The configured URL is
    taken to be well formed, so that the constructor returns. *)
Definition new_WebSocket (u : string) : M socket :=
  λ st, (Normal (length (sockets st)),
         set_sockets (sockets st ++
           [{| url := u; readyState := CONNECTING; sent := [] |}]) st).

Definition setTimeout (t : timer) : M unit :=
  modify (λ st, set_timers (timers st ++ [t]) st).

(** [ws.send(data)], where [ws] is what the awaited connection promise
    produced; [None] is [null]. *)
Definition WebSocket_send (ws : option socket) (data : string) : M unit :=
  match ws with
  | None => throw TypeError
  | Some s =>
      let* sock := gets (λ st, sockets st !! s) in
      match sock with
      | None => throw TypeError
      | Some w =>
          match send_error (readyState w) with
          | Some msg => throw (Error msg)
          | None =>
              modify (λ st, set_sockets
                (<[s := {| url := url w; readyState := readyState w;
                           sent := sent w ++ [data] |}]> (sockets st)) st)
          end
      end
  end.

(** *** [Map] operations on [wsCallbacks]

    Every key of the map is a string, so a key of another type is never
    found. *)
Definition Map_has (m : gmap string callback) (key : value number) : bool :=
  match key with
  | VString s => bool_decide (is_Some (m !! s))
  | _ => false
  end.
Definition Map_get (m : gmap string callback) (key : value number)
    : option callback :=
  match key with
  | VString s => m !! s
  | _ => None
  end.
Definition Map_delete (key : value number) (m : gmap string callback)
    : gmap string callback :=
  match key with
  | VString s => delete s m
  | _ => m
  end.
(** A write through the reference that [get] returned. *)
Definition Map_update (key : value number) (f : callback → callback)
    (m : gmap string callback) : gmap string callback :=
  match key with
  | VString s => alter f s m
  | _ => m
  end.

Definition push_output (x : value number) (cb : callback) : callback :=
  {| output := output cb ++ [x]; complete := complete cb;
     resolve := resolve cb; reject := reject cb |}.
Definition mark_complete (cb : callback) : callback :=
  {| output := output cb; complete := true;
     resolve := resolve cb; reject := reject cb |}.

(** ** The socket handlers installed by [getWebSocketConnection] *)

(** [onmessage]: lines 331-356. *)
Definition onmessage (data : string) : M unit :=
  try_catch
    (let* message := or_throw SyntaxError (JSON_parse data) in
     do* logger_debug "[AIConcert] WebSocket message received" in
     let* id := or_throw TypeError (Get message "id") in
     let* present := gets (λ st, Map_has (wsCallbacks st) id) in
     if ToBoolean Number_truthy id && present then
       let* found := gets (λ st, Map_get (wsCallbacks st) id) in
       let* cb := or_throw TypeError found in
       let* type := or_throw TypeError (Get message "type") in
       let* content := or_throw TypeError (Get message "content") in
       if strict_eq_string type "stdout" || strict_eq_string type "stderr"
       then
         modify (λ st, set_wsCallbacks
           (Map_update id (push_output content) (wsCallbacks st)) st)
       else if strict_eq_string type "system"
               || strict_eq_string type "error"
       then
         do* modify (λ st, set_wsCallbacks
               (Map_update id mark_complete (wsCallbacks st)) st) in
         do* modify (λ st, set_wsCallbacks
               (Map_delete id (wsCallbacks st)) st) in
         let* out := or_throw TypeError
                       (Array_join Number_toString (output cb) LF) in
         let* text := or_throw TypeError
                        (ToString Number_toString content) in
         call_resolve (resolve cb) (out +:+ LF +:+ text)
       else ret tt
     else ret tt)
    (λ _, logger_error "[AIConcert] WebSocket message parsing error:").

(** [onopen]: the connection promise is resolved with whatever
    [this.wsConnection] holds at that moment. *)
Definition onopen : M (option socket) :=
  do* logger_debug "[AIConcert] WebSocket connected" in
  gets wsConnection.

(** [onerror]: the connection promise is rejected with this error. *)
Definition onerror : M exn :=
  do* logger_error "[AIConcert] WebSocket error:" in
  ret (Error "WebSocket connection error").

Definition onclose : M unit :=
  do* logger_debug "[AIConcert] WebSocket connection closed" in
  modify (set_wsConnection None).

(** ** [getWebSocketConnection]: lines 314-368 *)

(** What the caller awaits: the stored socket, or the promise that the
    [onopen] or [onerror] handler of a freshly made socket settles. *)
Inductive connection :=
| Stored (ws : socket)
| Opening (ws : socket).

Definition getWebSocketConnection : M connection :=
  let* conn := gets wsConnection in
  let* state := gets (λ st, c ← conn; w ← sockets st !! c;
                            Some (readyState w)) in
  match conn, state with
  | Some c, Some OPEN => ret (Stored c)
  | _, _ =>
      let* u := gets (λ st, if truthy_string (authToken st)
                        then wsUrl st +:+ "?token=" +:+ default "" (authToken st)
                        else wsUrl st) in
      let* ws := new_WebSocket u in
      do* modify (set_wsConnection (Some ws)) in
      ret (Opening ws)
  end.

(** ** [executeCommand]: lines 87-126

    The function suspends once, at [await]; it is modelled by the part
    before the suspension and the part after it. *)

(** Up to the [await]: the argument check, then the call of
    [getWebSocketConnection] whose result is awaited.  A [Throw] here
    rejects the promise that [executeCommand] returned. *)
Definition executeCommand (command : option string) : M connection :=
  if negb (truthy_string command)
  then throw (Error "Missing required field: command")
  else getWebSocketConnection.

Definition timeout_text : string :=
  "Command execution timed out after 30 seconds. Partial output:" +:+ LF.

(** The closure given to [setTimeout]: lines 117-124. *)
Definition timeout_callback (t : timer) : M unit :=
  let* found := gets (λ st, wsCallbacks st !! timer_messageId t) in
  match found with
  | Some cb =>
      if negb (complete cb) then
        do* modify (λ st, set_wsCallbacks
              (alter mark_complete (timer_messageId t) (wsCallbacks st))
              st) in
        do* modify (λ st, set_wsCallbacks
              (delete (timer_messageId t) (wsCallbacks st)) st) in
        let* out := or_throw TypeError
                      (Array_join Number_toString (output cb) LF) in
        call_resolve (timer_resolve t) (timeout_text +:+ out)
      else ret tt
  | None => ret tt
  end.

(** [Date.now().toString()], the key under which a command waits. *)
Definition messageId (now : number) : string := Number_toString now.

(** The frame written by [executeCommand]. *)
Definition command_message (messageId command : string) : value number :=
  VObject [("id", VString messageId);
           ("type", VString "command");
           ("content", VObject [("command", VString command)])].

(** After the [await]: the promise executor of lines 95-125, run with the
    awaited socket [ws] and the reading [now] of [Date.now()].  An
    exception of the executor rejects the new promise. *)
Definition executeCommand_resume (ws : option socket) (command : string)
    (now : number) : M promise :=
  let* p := new_Promise in
  do* try_catch
        (let messageId := messageId now in
         do* modify (λ st, set_wsCallbacks
               (<[messageId := {| output := []; complete := false;
                                  resolve := p; reject := p |}]>
                  (wsCallbacks st)) st) in
         do* WebSocket_send ws
               (JSON_stringify (command_message messageId command)) in
         setTimeout {| timer_messageId := messageId;
                       timer_resolve := p |})
        (λ e, call_reject p e) in
  ret p.

(** ** The event loop

    Each event runs one callback to completion.  [Resume] takes the awaited
    socket and the clock reading as the surroundings supply them; the
    transport events are the [ws] package changing a socket's state and
    then calling the handler installed on it. *)

Inductive event :=
| Call (command : option string)
| Resume (ws : option socket) (command : string) (now : number)
| Message (data : string)
| Deadline (k : nat)
| TransportOpen (s : socket)
| TransportError (s : socket)
| TransportClose (s : socket).

Definition set_readyState (s : socket) (r : ReadyState) : M unit :=
  modify (λ st, set_sockets
    (alter (λ w, {| url := url w; readyState := r; sent := sent w |}) s
           (sockets st)) st).

(** The [k]-th armed timer goes off: it is disarmed and its closure runs. *)
Definition fire (k : nat) : M unit :=
  let* armed := gets (λ st, timers st !! k) in
  match armed with
  | Some t =>
      do* modify (λ st, set_timers (delete k (timers st)) st) in
      timeout_callback t
  | None => ret tt
  end.

Definition handle (ev : event) : M unit :=
  match ev with
  | Call command => do* executeCommand command in ret tt
  | Resume ws command now =>
      do* executeCommand_resume ws command now in ret tt
  | Message data => onmessage data
  | Deadline k => fire k
  | TransportOpen s => do* set_readyState s OPEN in do* onopen in ret tt
  | TransportError s => do* onerror in ret tt
  | TransportClose s => do* set_readyState s CLOSED in onclose
  end.

Definition step (ev : event) (st : AIConcert) : AIConcert :=
  exec (handle ev) st.

Fixpoint run (evs : list event) (st : AIConcert) : AIConcert :=
  match evs with
  | [] => st
  | ev :: rest => run rest (step ev st)
  end.

(** The message ids allocated along a run, oldest first. *)
Fixpoint issued (evs : list event) : list string :=
  match evs with
  | [] => []
  | Resume _ _ now :: rest => messageId now :: issued rest
  | _ :: rest => issued rest
  end.

(** ** Vocabulary of the properties *)

(** The field [key] of the frame carried by [data], when it parses and is
    not [null]. *)
Definition frame_field (data key : string) : option (value number) :=
  message ← JSON_parse data; Get message key.

Definition is_Resolve (p : promise) (s : settle) : bool :=
  match s with
  | Resolve q _ => bool_decide (q = p)
  | Reject _ _ => false
  end.

(** How many times the [resolve] handle of [p] has been called. *)
Definition resolutions (p : promise) (st : AIConcert) : nat :=
  length (filter (λ s, is_Resolve p s = true) (settled st)).

(** [f] occurs in [s]. *)
Definition contains (s f : string) : Prop :=
  ∃ before after, s = before +:+ f +:+ after.

(** The socket a caller of [getWebSocketConnection] ends up waiting for. *)
Definition attempt (c : connection) : socket :=
  match c with
  | Stored ws => ws
  | Opening ws => ws
  end.

(** Two calls of [getWebSocketConnection] in a row, with nothing in between,
    share one connection attempt: both wait for the same socket and the
    second call constructs none. *)
Definition share_one_attempt (st : AIConcert) : Prop :=
  ∀ c1 st1 c2 st2,
    getWebSocketConnection st = (Normal c1, st1) →
    getWebSocketConnection st1 = (Normal c2, st2) →
    attempt c1 = attempt c2 ∧ sockets st2 = sockets st1.

(** What [onmessage] does with the state once it has logged the frame and
    found that it carries the id [i] of the stored callback [cb]; the lemma
    [onmessage_addressed] derives it from the handler. *)
Definition dispatch (i : string) (cb : callback) (ty content : value number)
    (st : AIConcert) : AIConcert :=
  if strict_eq_string ty "stdout" || strict_eq_string ty "stderr" then
    set_wsCallbacks (<[i := push_output content cb]> (wsCallbacks st)) st
  else if strict_eq_string ty "system" || strict_eq_string ty "error" then
    let st' := set_wsCallbacks (delete i (wsCallbacks st)) st in
    match Array_join Number_toString (output cb) LF,
          ToString Number_toString content with
    | Some out, Some text =>
        set_settled (settled st ++ [Resolve (resolve cb) (out +:+ LF +:+ text)])
                    st'
    | _, _ =>
        set_logged (logged st
                    ++ [LogError "[AIConcert] WebSocket message parsing error:"])
                   st'
    end
  else st.

(** A state that differs from [st] in the log at most. *)
Definition logs_only (st st' : AIConcert) : Prop :=
  st' = set_logged (logged st') st.

(** Every stored callback is still waiting. *)
Definition all_waiting (st : AIConcert) : Prop :=
  ∀ i cb, wsCallbacks st !! i = Some cb → complete cb = false.

(** Every armed timer carries a message id, which is never empty. *)
Definition timers_have_ids (st : AIConcert) : Prop :=
  ∀ t, t ∈ timers st → timer_messageId t ≠ "".

Definition steady (st : AIConcert) : Prop :=
  all_waiting st ∧ timers_have_ids st.

(** The bookkeeping behind resolve-once along a run whose message ids so
    far are [ids]: a stored callback has one of these ids and a promise
    that has been allocated and not resolved; an armed timer has one of
    these ids and, if a callback is stored under its id, resolves that
    callback's promise; distinct entries have distinct promises; and no
    promise has been resolved twice. *)
Definition history (ids : list string) (st : AIConcert) : Prop :=
  (∀ i cb, wsCallbacks st !! i = Some cb →
     i ∈ ids ∧ resolve cb < promises st ∧ resolutions (resolve cb) st = 0) ∧
  (∀ t, t ∈ timers st →
     timer_messageId t ∈ ids ∧
     ∀ cb, wsCallbacks st !! timer_messageId t = Some cb →
           resolve cb = timer_resolve t) ∧
  (∀ i j cb cb', wsCallbacks st !! i = Some cb →
     wsCallbacks st !! j = Some cb' → resolve cb = resolve cb' → i = j) ∧
  (∀ p, resolutions p st ≤ 1) ∧
  (∀ p, promises st ≤ p → resolutions p st = 0).

(** What one event does to the table, the calls of promise handles, the
    armed timers and the promise counter; [step_effect] shows that every
    step is of one of these kinds. *)
Inductive effect : event → AIConcert → AIConcert → Prop :=
| effect_quiet ev st st' :
    wsCallbacks st' = wsCallbacks st → settled st' = settled st →
    timers st' = timers st → promises st' = promises st →
    effect ev st st'
| effect_append ev st st' i cb x :
    wsCallbacks st !! i = Some cb →
    wsCallbacks st' = <[i := push_output x cb]> (wsCallbacks st) →
    settled st' = settled st →
    timers st' = timers st → promises st' = promises st →
    effect ev st st'
| effect_terminal ev st st' i cb :
    wsCallbacks st !! i = Some cb →
    wsCallbacks st' = delete i (wsCallbacks st) →
    (settled st' = settled st ∨
     ∃ text, settled st' = settled st ++ [Resolve (resolve cb) text]) →
    timers st' = timers st → promises st' = promises st →
    effect ev st st'
| effect_deadline k t st st' :
    timers st !! k = Some t →
    timers st' = delete k (timers st) → promises st' = promises st →
    ((wsCallbacks st' = wsCallbacks st ∧ settled st' = settled st ∧
      ∀ cb, wsCallbacks st !! timer_messageId t = Some cb →
            complete cb = true) ∨
     (∃ cb, wsCallbacks st !! timer_messageId t = Some cb ∧
            complete cb = false ∧
            wsCallbacks st' = delete (timer_messageId t) (wsCallbacks st) ∧
            (settled st' = settled st ∨
             ∃ text, settled st'
                     = settled st ++ [Resolve (timer_resolve t) text]))) →
    effect (Deadline k) st st'
| effect_register ws command now st st' :
    wsCallbacks st'
    = <[messageId now := {| output := []; complete := false;
                            resolve := promises st;
                            reject := promises st |}]> (wsCallbacks st) →
    promises st' = S (promises st) →
    ((settled st' = settled st ∧
      timers st' = timers st ++ [{| timer_messageId := messageId now;
                                    timer_resolve := promises st |}]) ∨
     (∃ e, settled st' = settled st ++ [Reject (promises st) e] ∧
           timers st' = timers st)) →
    effect (Resume ws command now) st st'.

End AIConcert.

Arguments Normal {A} a.
Arguments Throw {A} e.

(** ** A runtime to evaluate the model on

    Numbers are integers printed in decimal; [JSON.parse] recognises the
    frames listed in [known_frames] and rejects every other text; [send]
    throws on a connecting socket, as the [ws] package does. *)

Module Sample.

Definition quote : string := String "034"%char "".

Fixpoint commas (l : list string) : string :=
  match l with
  | [] => ""
  | [x] => x
  | x :: rest => x +:+ "," +:+ commas rest
  end.

Definition decimal (n : Z) : string := NilZero.string_of_int (Z.to_int n).

Fixpoint stringify (v : value Z) : string :=
  match v with
  | VUndefined | VNull => "null"
  | VBool b => if b then "true" else "false"
  | VNumber n => decimal n
  | VString s => quote +:+ s +:+ quote
  | VArray items => "[" +:+ commas (map stringify items) +:+ "]"
  | VObject props =>
      "{" +:+ commas (map (λ kv, quote +:+ kv.1 +:+ quote +:+ ":"
                                  +:+ stringify kv.2) props) +:+ "}"
  end.

Definition frame (id type content : string) : value Z :=
  VObject [("id", VString id); ("type", VString type);
           ("content", VString content)].

(** The clock reading of the examples, and the id it gives. *)
Definition tick : Z := 1700000000000.
Definition id0 : string := decimal tick.

Definition known_frames : list (value Z) :=
  [ frame id0 "stdout" "total 0";
    frame id0 "stderr" "warning";
    frame id0 "system" "done";
    frame id0 "error" "exit 1";
    frame id0 "progress" "50%";
    frame "17" "system" "late";
    VNull ].

Definition parse (data : string) : option (value Z) :=
  head (filter (λ v, stringify v = data) known_frames).

Definition runtime : Runtime :=
  {| number := Z;
     Number_toString := decimal;
     Number_truthy := λ n, bool_decide (n ≠ 0%Z);
     JSON_parse := parse;
     JSON_stringify := stringify;
     send_error := λ r, match r with
                        | CONNECTING =>
                            Some "WebSocket is not open: readyState 0 (CONNECTING)"
                        | _ => None
                        end;
     Number_toString_nonempty :=
       ltac:(intros n; unfold decimal; destruct (Z.to_int n) as [d|d];
             [destruct d|]; discriminate) |}.

#[local] Existing Instance runtime.

(** The tool as the test file constructs it. *)
Definition fresh : AIConcert :=
  constructed "ws://localhost:8080/ws" (Some "test_auth_token").

(** A tool instance whose socket 0 is open. *)
Definition connected : AIConcert :=
  {| wsUrl := "ws://localhost:8080/ws"; authToken := Some "test_auth_token";
     wsConnection := Some 0; wsCallbacks := ∅;
     sockets := [{| url := "ws://localhost:8080/ws?token=test_auth_token";
                    readyState := OPEN; sent := [] |}];
     promises := 0; settled := []; timers := []; logged := [] |}.

Definition stdout_frame : string := stringify (frame id0 "stdout" "total 0").
Definition system_frame : string := stringify (frame id0 "system" "done").
Definition progress_frame : string := stringify (frame id0 "progress" "50%").
Definition late_frame : string := stringify (frame "17" "system" "late").

(** [ls -la] is called, the socket opens, the command is sent at [tick],
    and one fragment of output has arrived. *)
Definition session : list event :=
  [Call (Some "ls -la"); TransportOpen 0; Resume (Some 0) "ls -la" tick;
   Message stdout_frame].

Definition listing : AIConcert := run session fresh.

(** The callback stored in [listing], and the timer armed for it. *)
Definition listing_callback : callback :=
  {| output := [VString "total 0"]; complete := false;
     resolve := 0; reject := 0 |}.
Definition listing_timer : timer :=
  {| timer_messageId := id0; timer_resolve := 0 |}.

End Sample.

(** ** The rest of the tool: construction, dispatch and the HTTP endpoints

    An HTTP call is one request handed to axios and one answer, which the
    surroundings supply: the body of a response, or the message of the
    error axios rejects with. *)

Inductive Method := GET | POST | PUT | DELETE.

Module Http.
Section Http.
Context `{RT : Runtime}.

(** The configuration given to axios. *)
Record request := {
  method : Method;
  url : string;
  data : option (gmap string (value number));
  params : option (gmap string (value number));
  headers : gmap string string;
}.

Inductive answer :=
| Response (body : value number)
| Rejected (message : string).

(** [apiUrl] and [this] are the instance, [served] is the far end seen
    through axios, and [engine_message] is the message of a TypeError that
    the engine throws during the call, if it throws one. *)
Context (apiUrl : string) (this : AIConcert) (served : request → answer)
        (engine_message : string).

(** The requests made and the log lines written so far, oldest first. *)
Record exchange := {
  asked : list request;
  noted : list log_entry;
}.

Definition H (A : Type) : Type := exchange → completion A * exchange.

Definition pure {A} (a : A) : H A := λ w, (Normal a, w).
Definition raise {A} (e : exn) : H A := λ w, (Throw e, w).
Definition and_then {A B} (m : H A) (k : A → H B) : H B :=
  λ w, match m w with
       | (Normal a, w') => k a w'
       | (Throw e, w') => (Throw e, w')
       end.
Definition rescue {A} (body : H A) (handler : exn → H A) : H A :=
  λ w, match body w with
       | (Normal a, w') => (Normal a, w')
       | (Throw e, w') => handler e w'
       end.
Definition or_raise {A} (e : exn) (o : option A) : H A :=
  match o with
  | Some a => pure a
  | None => raise e
  end.

Notation "'let+' x ':=' m 'in' k" := (and_then m (λ x, k))
  (at level 10, x name, m at level 100, k at level 200).
Notation "'do+' m 'in' k" := (and_then m (λ _, k))
  (at level 10, m at level 100, k at level 200).

Definition log_debug (text : string) : H unit :=
  λ w, (Normal tt, {| asked := asked w; noted := noted w ++ [Debug text] |}).
Definition log_error (text : string) : H unit :=
  λ w, (Normal tt,
        {| asked := asked w; noted := noted w ++ [LogError text] |}).

(** [await axios(config)]: the request goes out, and the call yields the
    body of the response or throws the error axios rejects with. *)
Definition axios (config : request) : H (value number) :=
  λ w, let w' := {| asked := asked w ++ [config]; noted := noted w |} in
       match served config with
       | Response body => (Normal body, w')
       | Rejected message => (Throw (Error message), w')
       end.

(** The double quote, which the reply texts contain. *)
Definition DQUOTE : string := String "034"%char "".

(** [error.message]. *)
Definition error_message (e : exn) : string :=
  match e with
  | Error message => message
  | TypeError | SyntaxError => engine_message
  end.

(** A [catch] clause of the endpoints: it logs the error under [label]
    and returns [prefix] followed by the message of the error. *)
Definition reports (label prefix : string) (error : exn) : H string :=
  do+ log_error label in
  pure (prefix +:+ error_message error).

(** A string argument that may be [undefined], as a value and inside a
    template literal. *)
Definition argument (s : option string) : value number :=
  match s with
  | Some t => VString t
  | None => VUndefined
  end.
Definition interpolate (s : option string) : string :=
  match s with
  | Some t => t
  | None => "undefined"
  end.

(** [v?.key], for keys that no built-in prototype defines. *)
Definition optional_Get (v : value number) (key : string) : value number :=
  match v with
  | VUndefined | VNull => VUndefined
  | _ => default VUndefined (Get v key)
  end.

(** [params.key] on the record of parameters. *)
Definition parameter (ps : gmap string (value number)) (key : string)
    : value number :=
  default VUndefined (ps !! key).

(** [a || fallback] inside a template literal. *)
Definition or_text (v : value number) (fallback : string) : option string :=
  if ToBoolean Number_truthy v then ToString Number_toString v
  else Some fallback.

(** [array.map(f)] for a callback that may throw. *)
Fixpoint Array_map {A B} (f : A → option B) (l : list A) : option (list B) :=
  match l with
  | [] => Some []
  | x :: rest => y ← f x; ys ← Array_map f rest; Some (y :: ys)
  end.

(** *** [getAuthHeaders]: lines 301-311 *)
Definition getAuthHeaders : gmap string string :=
  let headers := {["Content-Type" := "application/json"]} in
  if truthy_string (authToken this)
  then <["Authorization" := "Bearer " +:+ default "" (authToken this)]>
         headers
  else headers.

(** *** [handleFileOperation]: lines 129-180 *)

Definition validOperations : list string :=
  ["read"; "write"; "list"; "delete"].

(** One line of a listing: line 170. *)
Definition file_line (file : value number) : option string :=
  name ← Get file "name";
  n ← ToString Number_toString name;
  isDirectory ← Get file "isDirectory";
  size ← Get file "size";
  s ← or_text size "N/A";
  Some (n +:+ (if ToBoolean Number_truthy isDirectory then "/" else "")
          +:+ " (" +:+ s +:+ ")").

(** [files.map(...).join('\n')]; anything but an array has no [map]. *)
Definition file_lines (files : value number) : option string :=
  match files with
  | VArray items => String.concat LF <$> Array_map file_line items
  | _ => None
  end.

(** Lines 166-175: the text made from the response. *)
Definition file_reply (op : string) (path : option string)
    (response : value number) : H string :=
  if bool_decide (op = "read")
     && ToBoolean Number_truthy (optional_Get response "content")
  then
    let+ text := or_raise TypeError
                   (ToString Number_toString
                      (optional_Get response "content")) in
    pure ("File content for " +:+ interpolate path +:+ ":" +:+ LF +:+ LF
          +:+ "```" +:+ LF +:+ text +:+ LF +:+ "```")
  else if bool_decide (op = "list")
          && ToBoolean Number_truthy (optional_Get response "files")
  then
    let+ files := or_raise TypeError
                    (file_lines (optional_Get response "files")) in
    pure ("Files in "
          +:+ (if truthy_string path then interpolate path
               else "current directory")
          +:+ ":" +:+ LF +:+ LF +:+ files)
  else pure ("File operation '" +:+ op +:+ "' completed successfully.").

Definition handleFileOperation (operation path content : option string)
    : H string :=
  if negb (truthy_string operation)
  then raise (Error "Missing required field: operation")
  else
  let op := default "" operation in
  if negb (truthy_string path) && negb (bool_decide (op = "list"))
  then raise (Error "Missing required field: path")
  else if negb (bool_decide (op ∈ validOperations))
  then raise (Error ("Invalid operation: " +:+ op
                     +:+ ". Valid operations are: "
                     +:+ String.concat ", " validOperations))
  else if bool_decide (op = "write") && negb (truthy_string content)
  then raise (Error "Missing required field: content")
  else
  rescue
    (let headers := getAuthHeaders in
     let endpoint := apiUrl +:+ "/api/files/" +:+ op in
     let data := {["path" := argument path]} in
     let data := if truthy_string content && bool_decide (op = "write")
                 then <["content" := argument content]> data
                 else data in
     let+ response := axios {| method := POST; url := endpoint;
                               data := Some data; params := None;
                               headers := headers |} in
     file_reply op path response)
    (reports "[AIConcert] File operation error:"
             "Error with file operation: ").

(** *** [analyzeCode]: lines 183-208 *)

(** [{ path, ...ps }]: a [path] key among the parameters wins. *)
Definition with_path (path : string) (ps : gmap string (value number))
    : gmap string (value number) :=
  ps ∪ {["path" := VString path]}.

(** Lines 197-203 and 224-229: the text made from the response of an
    endpoint that starts a job; [failed] and [started] are the two texts
    of the endpoint. *)
Definition job_reply (failed : string) (started : string → string)
    (response : value number) : H string :=
  let jobId := optional_Get response "job_id" in
  if negb (ToBoolean Number_truthy jobId)
  then pure failed
  else
    let+ job := or_raise TypeError (ToString Number_toString jobId) in
    pure (started job).

(** The end of both texts: how to ask for the status of the job. *)
Definition status_hint (action job : string) : string :=
  " is running in the background. You can check the status later with action: "
  +:+ DQUOTE +:+ action +:+ DQUOTE
  +:+ ", operation: " +:+ DQUOTE +:+ "status" +:+ DQUOTE
  +:+ ", params: { job_id: " +:+ DQUOTE +:+ job +:+ DQUOTE +:+ " }".

Definition analyzeCode (path : option string)
    (ps : gmap string (value number)) : H string :=
  if negb (truthy_string path)
  then raise (Error "Missing required field: path")
  else
  let p := default "" path in
  rescue
    (let headers := getAuthHeaders in
     let+ response := axios {| method := POST;
                               url := apiUrl +:+ "/api/analysis/start";
                               data := Some (with_path p ps);
                               params := None; headers := headers |} in
     job_reply "Failed to start analysis. Invalid response from server."
       (λ job, "Analysis started for " +:+ p +:+ ". Job ID: " +:+ job
               +:+ LF +:+ LF +:+ "The analysis"
               +:+ status_hint "analyze" job)
       response)
    (reports "[AIConcert] Analysis error:" "Error analyzing code: ").

(** *** [runTest]: lines 211-234 *)
Definition runTest (ps : gmap string (value number)) : H string :=
  if negb (ToBoolean Number_truthy (parameter ps "repo_url"))
     && negb (ToBoolean Number_truthy (parameter ps "code_path"))
  then raise (Error "Missing required parameters. Either repo_url or code_path must be provided.")
  else
  rescue
    (let headers := getAuthHeaders in
     let endpoint := if ToBoolean Number_truthy (parameter ps "repo_url")
                     then apiUrl +:+ "/api/testing/repository"
                     else apiUrl +:+ "/api/testing/local" in
     let+ response := axios {| method := POST; url := endpoint;
                               data := Some ps; params := None;
                               headers := headers |} in
     job_reply "Failed to start test. Invalid response from server."
       (λ job, "Test execution started. Job ID: " +:+ job
               +:+ LF +:+ LF +:+ "The test" +:+ status_hint "test" job)
       response)
    (reports "[AIConcert] Test execution error:" "Error running test: ").

(** *** [manageProject]: lines 237-298 *)

(** The [switch] of lines 247-276: the method and the endpoint. *)
Definition project_route (operation : string)
    (ps : gmap string (value number)) : H (Method * string) :=
  let endpoint := apiUrl +:+ "/api/v2/projects" in
  let with_id (m : Method) : H (Method * string) :=
    if negb (ToBoolean Number_truthy (parameter ps "id"))
    then raise (Error "Missing required parameter: id")
    else
      let+ id := or_raise TypeError
                   (ToString Number_toString (parameter ps "id")) in
      pure (m, endpoint +:+ "/" +:+ id) in
  if bool_decide (operation = "create") then pure (POST, endpoint)
  else if bool_decide (operation = "update") then with_id PUT
  else if bool_decide (operation = "delete") then with_id DELETE
  else if bool_decide (operation = "get") then with_id GET
  else if bool_decide (operation = "list") then pure (GET, endpoint)
  else raise (Error ("Unknown project operation: " +:+ operation)).

(** One line of the list of projects: line 289. *)
Definition project_line (project : value number) : option string :=
  name ← Get project "name";
  n ← ToString Number_toString name;
  id ← Get project "id";
  i ← ToString Number_toString id;
  description ← Get project "description";
  d ← or_text description "No description";
  Some ("- " +:+ n +:+ " (ID: " +:+ i +:+ "): " +:+ d).

Definition is_GET (m : Method) : bool :=
  match m with
  | GET => true
  | _ => false
  end.

(** Lines 286-293: the text made from the response. *)
Definition project_reply (op : string) (m : Method)
    (response : value number) : H string :=
  match response with
  | VArray projects =>
      if is_GET m then
        let+ lines := or_raise TypeError
                        (Array_map project_line projects) in
        pure ("Projects:" +:+ LF +:+ LF +:+ String.concat LF lines)
      else pure ("Project operation '" +:+ op
                 +:+ "' completed successfully.")
  | _ => pure ("Project operation '" +:+ op
               +:+ "' completed successfully.")
  end.

Definition manageProject (operation : option string)
    (ps : gmap string (value number)) : H string :=
  if negb (truthy_string operation)
  then raise (Error "Missing required field: operation")
  else
  let op := default "" operation in
  rescue
    (let headers := getAuthHeaders in
     let+ route := project_route op ps in
     let+ response := axios {| method := route.1; url := route.2;
                               data := if is_GET route.1 then None
                                       else Some ps;
                               params := if is_GET route.1 then Some ps
                                         else None;
                               headers := headers |} in
     project_reply op route.1 response)
    (reports "[AIConcert] Project operation error:"
             "Error with project operation: ").

(** *** [_call]: lines 61-84 *)

(** The argument of [_call], destructured at line 63. *)
Record call_data := {
  action : string;
  command : option string;
  path : option string;
  operation : option string;
  content : option string;
  call_params : option (gmap string (value number));
}.

(** What [_call] comes to: the text it returns, or, for the action
    [terminal], the call of [executeCommand] whose promise it awaits. *)
Inductive called :=
| Returned (text : string)
| Awaits_executeCommand (command : option string).

Definition caught (error : exn) : string :=
  "Error executing AIConcert action: " +:+ error_message error.

Definition _call (input : call_data) : H called :=
  do+ log_debug "[AIConcert] Call with data:" in
  let ps := default ∅ (call_params input) in
  rescue
    (if bool_decide (action input = "terminal")
     then pure (Awaits_executeCommand (command input))
     else if bool_decide (action input = "file")
     then let+ text := handleFileOperation (operation input) (path input)
                         (content input) in
          pure (Returned text)
     else if bool_decide (action input = "analyze")
     then let+ text := analyzeCode (path input) ps in pure (Returned text)
     else if bool_decide (action input = "test")
     then let+ text := runTest ps in pure (Returned text)
     else if bool_decide (action input = "project")
     then let+ text := manageProject (operation input) ps in
          pure (Returned text)
     else pure (Returned ("Unknown action: " +:+ action input
                          +:+ ". Available actions are: terminal, file, analyze, test, project.")))
    (λ error,
       do+ log_error "[AIConcert] Error during execution:" in
       pure (Returned (caught error))).

(** From [w] to [w'] at most one request was made, and that one went to a
    URL under [apiUrl] with the headers of [getAuthHeaders]. *)
Definition one_request_at_most (w w' : exchange) : Prop :=
  asked w' = asked w ∨
  ∃ q, asked w' = asked w ++ [q] ∧ headers q = getAuthHeaders ∧
       ∃ rest, url q = apiUrl +:+ rest.

(** What [_call] returns once the promise of [executeCommand] has settled:
    the text it resolved with, or the text made from the error it was
    rejected with. *)
Definition _call_settled (outcome : completion string) : H string :=
  match outcome with
  | Normal text => pure text
  | Throw error =>
      do+ log_error "[AIConcert] Error during execution:" in
      pure (caught error)
  end.

End Http.

(** *** The constructor with [getApiUrl] and [getWsUrl]: lines 9-59 *)

(** The argument [fields] of the constructor. *)
Record fields := {
  AICONCERT_API_URL : option string;
  AICONCERT_WS_URL : option string;
  AICONCERT_AUTH_TOKEN : option string;
}.

(** [a || b] on strings that may be absent. *)
Definition or_else (a b : option string) : option string :=
  if truthy_string a then a else b.

(** [getApiUrl] and [getWsUrl], on the environment [env]. *)
Definition getUrl (name : string) (env : gmap string string)
    : completion string :=
  let url := default "" (or_else (env !! name) (Some "")) in
  if negb (truthy_string (Some url))
  then Throw (Error ("Missing " +:+ name +:+ " environment variable."))
  else Normal url.

(** The constructor: the API URL and the instance, or the error thrown. *)
Definition new_AIConcert `{RT : Runtime} (f : fields)
    (env : gmap string string) : completion (string * AIConcert) :=
  match (if truthy_string (AICONCERT_API_URL f)
         then Normal (default "" (AICONCERT_API_URL f))
         else getUrl "AICONCERT_API_URL" env) with
  | Throw e => Throw e
  | Normal api =>
      match (if truthy_string (AICONCERT_WS_URL f)
             then Normal (default "" (AICONCERT_WS_URL f))
             else getUrl "AICONCERT_WS_URL" env) with
      | Throw e => Throw e
      | Normal ws => Normal (api, constructed ws (AICONCERT_AUTH_TOKEN f))
      end
  end.

End Http.

(** ** More vocabulary for the properties *)

Section Vocabulary.
Context `{RT : Runtime}.

(** The message id an event is about, if it is about one. *)
Definition concerns (ev : event) (st : AIConcert) (i : string) : Prop :=
  match ev with
  | Message data => frame_field data "id" = Some (VString i)
  | Deadline k => ∃ t, timers st !! k = Some t ∧ timer_messageId t = i
  | Resume _ _ now => messageId now = i
  | _ => False
  end.

(** [data] is a [stdout] or [stderr] frame for the id [i] with the string
    [content]. *)
Definition partial_frame (i data content : string) : Prop :=
  frame_field data "id" = Some (VString i) ∧
  (frame_field data "type" = Some (VString "stdout") ∨
   frame_field data "type" = Some (VString "stderr")) ∧
  frame_field data "content" = Some (VString content).

(** An entry of a directory listing as the server sends it. *)
Definition file_entry (name : string) (isDirectory : bool) (size : number)
    : value number :=
  VObject [("name", VString name); ("isDirectory", VBool isDirectory);
           ("size", VNumber size)].

Definition entry_value (entry : string * bool * number) : value number :=
  let '(name, isDirectory, size) := entry in
  file_entry name isDirectory size.

(** The line shown for such an entry. *)
Definition listing_line (entry : string * bool * number) : string :=
  let '(name, isDirectory, size) := entry in
  name +:+ (if isDirectory then "/" else "") +:+ " ("
  +:+ (if Number_truthy size then Number_toString size else "N/A")
  +:+ ")".

(** The URL that the constructor takes for a field and the environment
    variable behind it: the field when it is a non-empty string, otherwise
    the variable when that is one. *)
Definition configured (field variable : option string) (s : string) : Prop :=
  s ≠ "" ∧
  (field = Some s ∨ (truthy_string field = false ∧ variable = Some s)).

(** A file operation that gets past the argument checks. *)
Definition file_operation_accepted (operation path content : option string)
    : Prop :=
  ∃ op, operation = Some op ∧ op ∈ Http.validOperations ∧
        (truthy_string path = true ∨ op = "list") ∧
        (op = "write" → truthy_string content = true).

End Vocabulary.

(** ** A runtime whose server sends a content that has no text *)

Module Hostile.

Definition stubborn : value Z :=
  VObject [("toString", VNull)].

Definition bad_frame : value Z :=
  VObject [("id", VString Sample.id0); ("type", VString "system");
           ("content", stubborn)].

Definition worse_frame : value Z :=
  VObject [("id", VString Sample.id0); ("type", VString "stdout");
           ("content", stubborn)].

Definition parse (data : string) : option (value Z) :=
  if bool_decide (data = "bad") then Some bad_frame
  else if bool_decide (data = "worse") then Some worse_frame
  else Sample.parse data.

Definition runtime : Runtime :=
  {| number := Z;
     Number_toString := Sample.decimal;
     Number_truthy := λ n, bool_decide (n ≠ 0%Z);
     JSON_parse := parse;
     JSON_stringify := Sample.stringify;
     send_error := λ r, match r with
                        | CONNECTING =>
                            Some "WebSocket is not open: readyState 0 (CONNECTING)"
                        | _ => None
                        end;
     Number_toString_nonempty :=
       ltac:(intros n; unfold Sample.decimal;
             destruct (Z.to_int n) as [d|d]; [destruct d|]; discriminate) |}.

#[local] Existing Instance runtime.

(** [ls -la] has been sent at [Sample.tick] on an open socket. *)
Definition waiting : AIConcert :=
  {| wsUrl := "ws://localhost:8080/ws"; authToken := None;
     wsConnection := Some 0;
     wsCallbacks := {[Sample.id0 := {| output := []; complete := false;
                                       resolve := 0; reject := 0 |}]};
     sockets := [{| url := "ws://localhost:8080/ws"; readyState := OPEN;
                    sent := [] |}];
     promises := 1; settled := [];
     timers := [{| timer_messageId := Sample.id0; timer_resolve := 0 |}];
     logged := [] |}.

End Hostile.

(** ** A server for the HTTP endpoints *)

Module Served.
Import Http.
#[local] Existing Instance Sample.runtime.

Definition apiUrl : string := "http://localhost:8080".

Definition notes : value Z :=
  VObject [("files", VArray [file_entry "src" true 4096%Z;
                             file_entry "empty.txt" false 0%Z;
                             file_entry "notes.md" false 120%Z])].

(** The server: listings, file contents, a job id for an analysis, and a
    failure for everything about projects. *)
Definition served (r : request) : answer :=
  if bool_decide (url r = apiUrl +:+ "/api/files/list") then Response notes
  else if bool_decide (url r = apiUrl +:+ "/api/files/read")
  then Response (VObject [("content", VString "File content here")])
  else if bool_decide (url r = apiUrl +:+ "/api/analysis/start")
  then Response (VObject [("job_id", VString "test-job-id")])
  else Rejected "Request failed with status code 500".

Definition engine_message : string :=
  "Cannot convert object to primitive value".

Definition nothing_yet : exchange := {| asked := []; noted := [] |}.

(** A server that cannot be reached. *)
Definition down (r : request) : answer := Rejected "Network Error".

(** The fields and the environment of a construction. *)
Definition given : fields :=
  {| AICONCERT_API_URL := Some "http://localhost:8080";
     AICONCERT_WS_URL := Some "";
     AICONCERT_AUTH_TOKEN := Some "test_auth_token" |}.
Definition nothing_given : fields :=
  {| AICONCERT_API_URL := None; AICONCERT_WS_URL := None;
     AICONCERT_AUTH_TOKEN := None |}.
Definition environment : gmap string string :=
  {["AICONCERT_API_URL" := "http://elsewhere";
    "AICONCERT_WS_URL" := "ws://localhost:8080/ws"]}.

(** Three calls of the dispatcher. *)
Definition delete_call : call_data :=
  {| action := "file"; command := None; path := Some "/tmp/x";
     operation := Some "delete"; content := None; call_params := None |}.
Definition pathless_read : call_data :=
  {| action := "file"; command := None; path := None;
     operation := Some "read"; content := None; call_params := None |}.
Definition blank_command : call_data :=
  {| action := "terminal"; command := Some ""; path := None;
     operation := None; content := None; call_params := None |}.

(** The parameters of an update. *)
Definition renaming : gmap string (value Z) :=
  {["id" := VString "42"; "name" := VString "demo"]}.

(** The parameters of an analysis that carry a path of their own. *)
Definition redirected : gmap string (value Z) :=
  {["path" := VString "/elsewhere"; "depth" := VNumber 2%Z]}.

End Served.

(** * Properties *)

Section Properties.
Context `{RT : Runtime}.

(** ** Conversions *)

Lemma join_with_strings sep (frags : list string) :
  join_with (join_element Number_toString) sep (VString <$> frags)
  = Some (String.concat sep frags).
Proof.
  induction frags as [|f [|g rest] IH]; [done..|].
  change (join_with (join_element Number_toString) sep
            (VString <$> f :: g :: rest))
    with (s ← Some f;
          r ← join_with (join_element Number_toString) sep
                (VString <$> g :: rest);
          Some (s +:+ sep +:+ r)).
  by rewrite IH.
Qed.

Lemma Array_join_strings sep (frags : list string) :
  Array_join Number_toString (VString <$> frags) sep
  = Some (String.concat sep frags).
Proof. apply join_with_strings. Qed.

Lemma messageId_truthy now :
  ToBoolean Number_truthy (VString (messageId now)) = true.
Proof.
  apply bool_decide_eq_true_2, Number_toString_nonempty.
Qed.

Lemma frame_field_inv data key v :
  frame_field data key = Some v →
  ∃ message, JSON_parse data = Some message ∧ Get message key = Some v.
Proof.
  unfold frame_field. destruct (JSON_parse data) as [message|]; [|done].
  intros H. by exists message.
Qed.

Lemma frame_fields_same_message data k1 v1 k2 v2 message :
  JSON_parse data = Some message →
  frame_field data k1 = Some v1 → frame_field data k2 = Some v2 →
  Get message k1 = Some v1 ∧ Get message k2 = Some v2.
Proof. unfold frame_field. by intros ->. Qed.

(** Every field of a frame that has one field at all can be read. *)
Lemma Get_total (message : value number) k1 v1 k2 :
  Get message k1 = Some v1 → is_Some (Get message k2).
Proof. destruct message; naive_solver. Qed.

(** ** Frames that match nothing *)

Lemma logs_only_fields st st' :
  logs_only st st' →
  wsCallbacks st' = wsCallbacks st ∧ settled st' = settled st ∧
  timers st' = timers st ∧ promises st' = promises st ∧
  sockets st' = sockets st ∧ wsConnection st' = wsConnection st.
Proof. intros ->. done. Qed.

Ltac step_monad :=
  unfold onmessage, timeout_callback, fire, try_catch, bind, or_throw,
    gets, modify, ret, throw, logger_debug, logger_error, call_resolve,
    call_reject; simpl.

Lemma onmessage_unparseable data st :
  JSON_parse data = None →
  onmessage data st
  = (Normal tt,
     set_logged (logged st
                 ++ [LogError "[AIConcert] WebSocket message parsing error:"])
                st).
Proof. intros Hparse. step_monad. by rewrite Hparse. Qed.

Lemma onmessage_miss data st :
  (∀ id, frame_field data "id" = Some id →
         Map_has (wsCallbacks st) id = false) →
  (onmessage data st).1 = Normal tt ∧ logs_only st (onmessage data st).2.
Proof.
  intros Hid. unfold frame_field in Hid.
  step_monad. destruct (JSON_parse data) as [message|]; simpl in *; [|done].
  destruct (Get message "id") as [id|]; simpl; [|done].
  rewrite (Hid id eq_refl), andb_false_r. done.
Qed.

(** C9.  A frame that is not JSON is logged as an error and dropped: the
    handler returns normally, and nothing but the log changes, so every
    waiting command keeps its accumulated output, its flag and its
    handles. *)
Theorem unparseable_frame_dropped data st :
  JSON_parse data = None →
  onmessage data st
  = (Normal tt,
     set_logged (logged st
                 ++ [LogError "[AIConcert] WebSocket message parsing error:"])
                st).
Proof. apply onmessage_unparseable. Qed.

(** C7.  A frame whose id is not a key of the pending table is dropped:
    the handler returns normally and the state differs in the log at most;
    in particular the table, with every stored callback, is the same. *)
Theorem unknown_id_dropped data st :
  (∀ id, frame_field data "id" = Some id →
         Map_has (wsCallbacks st) id = false) →
  (onmessage data st).1 = Normal tt ∧
  logs_only st (onmessage data st).2 ∧
  wsCallbacks (onmessage data st).2 = wsCallbacks st ∧
  settled (onmessage data st).2 = settled st.
Proof.
  intros Hid. destruct (onmessage_miss data st Hid) as [Hret Hlog].
  destruct (logs_only_fields _ _ Hlog) as (? & ? & _). done.
Qed.

(** ** Frames addressed to a waiting command *)

Lemma strict_eq_string_true (v : value number) s :
  strict_eq_string v s = true ↔ v = VString s.
Proof.
  destruct v; simpl; try (split; [done|congruence]).
  rewrite bool_decide_eq_true. split; congruence.
Qed.

Lemma strict_eq_string_false (v : value number) s :
  strict_eq_string v s = false ↔ v ≠ VString s.
Proof.
  rewrite <-strict_eq_string_true. destruct (strict_eq_string v s); naive_solver.
Qed.

Lemma alter_present {A} (f : A → A) (m : gmap string A) i x :
  m !! i = Some x → alter f i m = <[i := f x]> m.
Proof.
  intros Hi. apply map_eq. intros j. destruct (decide (i = j)) as [<-|Hne].
  - by rewrite lookup_alter_eq, lookup_insert_eq, Hi.
  - by rewrite lookup_alter_ne, lookup_insert_ne.
Qed.

Lemma onmessage_addressed data st message i cb ty content :
  JSON_parse data = Some message →
  Get message "id" = Some (VString i) → i ≠ "" →
  wsCallbacks st !! i = Some cb →
  Get message "type" = Some ty →
  Get message "content" = Some content →
  onmessage data st
  = (Normal tt,
     dispatch i cb ty content
       (set_logged (logged st
                    ++ [Debug "[AIConcert] WebSocket message received"]) st)).
Proof.
  intros Hparse Hid Hne Hcb Hty Hcontent. unfold dispatch. step_monad.
  rewrite Hparse. simpl. rewrite Hid. simpl.
  rewrite Hcb, Hty, Hcontent. simpl.
  rewrite (bool_decide_eq_true_2 _ Hne). simpl. rewrite Hcb. simpl.
  destruct (strict_eq_string ty "stdout" || strict_eq_string ty "stderr").
  { simpl. by rewrite (alter_present _ _ _ _ Hcb). }
  destruct (strict_eq_string ty "system" || strict_eq_string ty "error");
    [|done].
  simpl. rewrite delete_alter_eq.
  destruct (Array_join Number_toString (output cb) LF); simpl; [|done].
  by destruct (ToString Number_toString content).
Qed.

(** Either the frame is dropped, or it is dispatched to a stored callback. *)
Lemma onmessage_cases data st :
  (onmessage data st).1 = Normal tt ∧
  (logs_only st (onmessage data st).2 ∨
   ∃ message i cb ty content,
     JSON_parse data = Some message ∧
     Get message "id" = Some (VString i) ∧ i ≠ "" ∧
     wsCallbacks st !! i = Some cb ∧
     Get message "type" = Some ty ∧
     Get message "content" = Some content ∧
     (onmessage data st).2
     = dispatch i cb ty content
         (set_logged (logged st
            ++ [Debug "[AIConcert] WebSocket message received"]) st)).
Proof.
  destruct (JSON_parse data) as [message|] eqn:Hparse.
  2: { rewrite (onmessage_unparseable _ _ Hparse). split; [done|].
       by left. }
  destruct (Get message "id") as [id|] eqn:Hid.
  2: { step_monad. rewrite Hparse. simpl. rewrite Hid. simpl.
       split; [done|]. by left. }
  destruct (Get_total _ _ _ "type" Hid) as [ty Hty].
  destruct (Get_total _ _ _ "content" Hid) as [content Hcontent].
  assert (∀ i, id = VString i → i ≠ "" → is_Some (wsCallbacks st !! i) →
    (onmessage data st).1 = Normal tt ∧
    ∃ cb, wsCallbacks st !! i = Some cb ∧
     (onmessage data st).2
     = dispatch i cb ty content
         (set_logged (logged st
            ++ [Debug "[AIConcert] WebSocket message received"]) st))
    as Hhit.
  { intros i -> Hne [cb Hcb].
    rewrite (onmessage_addressed _ _ _ _ _ _ _ Hparse Hid Hne Hcb Hty
               Hcontent).
    split; [done|]. by exists cb. }
  assert (ToBoolean Number_truthy id && Map_has (wsCallbacks st) id = false →
    (onmessage data st).1 = Normal tt ∧ logs_only st (onmessage data st).2)
    as Hmiss.
  { intros Hfalse. step_monad. rewrite Hparse. simpl. rewrite Hid. simpl.
    by rewrite Hfalse. }
  destruct id as [| | | |i| |];
    try (destruct Hmiss as [? ?]; [by rewrite ?andb_false_r|by auto]).
  destruct (decide (i = "")) as [->|Hne].
  { destruct Hmiss as [? ?]; [done|by auto]. }
  destruct (wsCallbacks st !! i) as [cb|] eqn:Hcb.
  - destruct (Hhit i eq_refl Hne) as [? (cb' & Hcb' & ?)]; [by eauto|].
    split; [done|]. right. exists message, i, cb', ty, content.
    by repeat split.
  - destruct Hmiss as [? ?]; [|by auto].
    simpl. rewrite Hcb. apply andb_false_r.
Qed.

Lemma onmessage_pending data st now cb ty :
  wsCallbacks st !! messageId now = Some cb →
  frame_field data "id" = Some (VString (messageId now)) →
  frame_field data "type" = Some ty →
  ∃ content,
    frame_field data "content" = Some content ∧
    onmessage data st
    = (Normal tt,
       dispatch (messageId now) cb ty content
         (set_logged (logged st
            ++ [Debug "[AIConcert] WebSocket message received"]) st)).
Proof.
  intros Hcb Hid Hty.
  destruct (frame_field_inv _ _ _ Hid) as (message & Hparse & Hid').
  destruct (frame_fields_same_message _ _ _ _ _ _ Hparse Hid Hty)
    as [_ Hty'].
  destruct (Get_total _ _ _ "content" Hid') as [content Hcontent].
  exists content. split.
  { unfold frame_field. by rewrite Hparse. }
  apply (onmessage_addressed _ _ message); try done.
  apply Number_toString_nonempty.
Qed.

(** C10.  A frame that carries the id of a waiting command and a type other
    than [stdout], [stderr], [system] and [error] changes nothing but the
    debug log: the stored callback keeps its output and its flag, no handle
    is called, and the entry stays in the table. *)
Theorem unknown_type_ignored data st now cb ty :
  wsCallbacks st !! messageId now = Some cb →
  frame_field data "id" = Some (VString (messageId now)) →
  frame_field data "type" = Some ty →
  ty ∉ [VString "stdout"; VString "stderr"; VString "system";
        VString "error"] →
  onmessage data st
  = (Normal tt,
     set_logged (logged st
                 ++ [Debug "[AIConcert] WebSocket message received"]) st) ∧
  wsCallbacks (onmessage data st).2 !! messageId now = Some cb ∧
  wsCallbacks (onmessage data st).2 = wsCallbacks st ∧
  settled (onmessage data st).2 = settled st.
Proof.
  intros Hcb Hid Hty Hother.
  destruct (onmessage_pending _ _ _ _ _ Hcb Hid Hty) as (content & _ & ->).
  apply not_elem_of_cons in Hother as [Hstdout Hother].
  apply not_elem_of_cons in Hother as [Hstderr Hother].
  apply not_elem_of_cons in Hother as [Hsystem Hother].
  apply not_elem_of_cons in Hother as [Herror _].
  apply strict_eq_string_false in Hstdout, Hstderr, Hsystem, Herror.
  unfold dispatch. by rewrite Hstdout, Hstderr, Hsystem, Herror.
Qed.

(** C2.  A [system] or [error] frame for a waiting command whose fragments
    are [frags] resolves the command's promise, and rejects nothing, with
    the fragments joined by line feeds, a line feed and the frame's content;
    the entry leaves the table. *)
Theorem terminal_frame_resolves data st now cb frags ty content :
  wsCallbacks st !! messageId now = Some cb →
  output cb = VString <$> frags →
  frame_field data "id" = Some (VString (messageId now)) →
  frame_field data "type" = Some (VString ty) →
  ty = "system" ∨ ty = "error" →
  frame_field data "content" = Some (VString content) →
  (onmessage data st).1 = Normal tt ∧
  settled (onmessage data st).2
  = settled st
    ++ [Resolve (resolve cb) (String.concat LF frags +:+ LF +:+ content)] ∧
  wsCallbacks (onmessage data st).2 = delete (messageId now) (wsCallbacks st) ∧
  wsCallbacks (onmessage data st).2 !! messageId now = None.
Proof.
  intros Hcb Hout Hid Hty Hterminal Hcontent.
  destruct (onmessage_pending _ _ _ _ _ Hcb Hid Hty) as (c & Hc & ->).
  rewrite Hcontent in Hc. injection Hc as <-.
  unfold dispatch. rewrite Hout, Array_join_strings. simpl.
  destruct Hterminal as [-> | ->]; simpl;
    (split; [done|]; split; [done|]; split; [done|]; apply lookup_delete_eq).
Qed.

(** C8.  A [stdout] or [stderr] frame for a waiting command appends its
    content to the command's output and does nothing else: no handle is
    called and the entry stays.  More generally a frame whose type is
    neither [system] nor [error] calls no handle and removes no entry. *)
Theorem only_terminal_frames_resolve data st :
  (∀ now cb ty content,
     wsCallbacks st !! messageId now = Some cb →
     frame_field data "id" = Some (VString (messageId now)) →
     frame_field data "type" = Some (VString ty) →
     ty = "stdout" ∨ ty = "stderr" →
     frame_field data "content" = Some content →
     (onmessage data st).1 = Normal tt ∧
     wsCallbacks (onmessage data st).2
     = <[messageId now := {| output := output cb ++ [content];
                             complete := complete cb;
                             resolve := resolve cb;
                             reject := reject cb |}]> (wsCallbacks st) ∧
     settled (onmessage data st).2 = settled st) ∧
  (frame_field data "type" ≠ Some (VString "system") →
   frame_field data "type" ≠ Some (VString "error") →
   settled (onmessage data st).2 = settled st ∧
   dom (wsCallbacks (onmessage data st).2) = dom (wsCallbacks st)).
Proof.
  split.
  - intros now cb ty content Hcb Hid Hty Hpartial Hcontent.
    destruct (onmessage_pending _ _ _ _ _ Hcb Hid Hty) as (c & Hc & ->).
    rewrite Hcontent in Hc. injection Hc as <-.
    unfold dispatch. by destruct Hpartial as [-> | ->].
  - intros Hsystem Herror.
    destruct (onmessage_cases data st) as [_ [Hlog | Hhit]].
    { destruct (logs_only_fields _ _ Hlog) as (-> & -> & _). done. }
    destruct Hhit as (message & i & cb & ty & content & Hparse & _ & _ & Hcb
                      & Hty & _ & ->).
    assert (frame_field data "type" = Some ty) as Hfield.
    { unfold frame_field. by rewrite Hparse. }
    assert (strict_eq_string ty "system" = false) as Hs.
    { apply strict_eq_string_false. congruence. }
    assert (strict_eq_string ty "error" = false) as He.
    { apply strict_eq_string_false. congruence. }
    unfold dispatch. rewrite Hs, He. simpl.
    destruct (strict_eq_string ty "stdout" || strict_eq_string ty "stderr");
      simpl; [|done].
    split; [done|]. apply dom_insert_lookup_L. eauto.
Qed.

(** ** The deadline *)

Lemma append_assoc (a b c : string) : (a +:+ b) +:+ c = a +:+ b +:+ c.
Proof.
  induction a as [|x a IH]; [done|].
  change (String x ((a +:+ b) +:+ c) = String x (a +:+ b +:+ c)).
  by f_equal.
Qed.

Lemma append_empty_r (a : string) : a +:+ "" = a.
Proof.
  induction a as [|x a IH]; [done|].
  change (String x (a +:+ "") = String x a). by f_equal.
Qed.

Lemma contains_append_r s f before : contains s f → contains (before +:+ s) f.
Proof.
  intros (b & a & ->). exists (before +:+ b), a. by rewrite append_assoc.
Qed.

Lemma contains_concat sep (frags : list string) f :
  f ∈ frags → contains (String.concat sep frags) f.
Proof.
  induction frags as [|g [|h rest] IH]; intros Hin.
  - by apply elem_of_nil in Hin.
  - apply list_elem_of_singleton in Hin as ->. exists "", "".
    change (g = g +:+ ""). by rewrite append_empty_r.
  - apply elem_of_cons in Hin as [-> | Hin].
    + by exists "", (sep +:+ String.concat sep (h :: rest)).
    + change (String.concat sep (g :: h :: rest))
        with (g +:+ sep +:+ String.concat sep (h :: rest)).
      by apply contains_append_r, contains_append_r, IH.
Qed.

(** C3.  When the deadline closure runs while the command's callback is
    still stored and waiting, it resolves the promise, and rejects nothing,
    with the time-out notice followed by the fragments joined by line
    feeds; every fragment occurs in that text; the entry leaves the
    table. *)
Theorem deadline_resolves_with_partial_output t st cb frags :
  wsCallbacks st !! timer_messageId t = Some cb →
  complete cb = false →
  output cb = VString <$> frags →
  let text := "Command execution timed out after 30 seconds. Partial output:"
              +:+ LF +:+ String.concat LF frags in
  (timeout_callback t st).1 = Normal tt ∧
  settled (timeout_callback t st).2
  = settled st ++ [Resolve (timer_resolve t) text] ∧
  (∀ f, f ∈ frags → contains text f) ∧
  wsCallbacks (timeout_callback t st).2
  = delete (timer_messageId t) (wsCallbacks st) ∧
  wsCallbacks (timeout_callback t st).2 !! timer_messageId t = None.
Proof.
  intros Hcb Hwaiting Hout text.
  assert (timeout_callback t st
          = (Normal tt,
             set_settled (settled st ++ [Resolve (timer_resolve t) text])
               (set_wsCallbacks (delete (timer_messageId t) (wsCallbacks st))
                                st))) as ->.
  { step_monad. rewrite Hcb, Hwaiting. simpl.
    rewrite Hout, Array_join_strings. simpl. by rewrite delete_alter_eq. }
  simpl. repeat split; [|apply lookup_delete_eq].
  intros f Hf. unfold text.
  by apply contains_append_r, contains_append_r, contains_concat.
Qed.

(** ** The argument check *)

(** C6.  With an absent or empty command, [executeCommand] throws the error
    for the missing field before doing anything else: the state is the one
    it was called in, so no frame has been given to a socket and no entry
    has been put in the table. *)
Theorem empty_command_rejected command st :
  command = None ∨ command = Some "" →
  executeCommand command st
  = (Throw (Error "Missing required field: command"), st).
Proof. by intros [-> | ->]. Qed.

(** ** The connection *)

Lemma getWebSocketConnection_stored st c w :
  wsConnection st = Some c → sockets st !! c = Some w → readyState w = OPEN →
  getWebSocketConnection st = (Normal (Stored c), st).
Proof.
  intros Hc Hw Hopen. unfold getWebSocketConnection, bind, gets, ret.
  rewrite Hc. simpl. rewrite Hw. simpl. by rewrite Hopen.
Qed.

Lemma getWebSocketConnection_opening st :
  (∀ c w, wsConnection st = Some c → sockets st !! c = Some w →
          readyState w ≠ OPEN) →
  getWebSocketConnection st
  = (Normal (Opening (length (sockets st))),
     set_wsConnection (Some (length (sockets st)))
       (set_sockets
          (sockets st
           ++ [{| url := if truthy_string (authToken st)
                         then wsUrl st +:+ "?token="
                              +:+ default "" (authToken st)
                         else wsUrl st;
                  readyState := CONNECTING; sent := [] |}]) st)).
Proof.
  intros Hclosed. unfold getWebSocketConnection, bind, gets, ret.
  destruct (wsConnection st) as [c|] eqn:Hc; simpl; [|done].
  destruct (sockets st !! c) as [w|] eqn:Hw; simpl; [|done].
  specialize (Hclosed c w eq_refl Hw).
  by destruct (readyState w).
Qed.

(** C4, as the code has it.  A stored connection in the open state is
    returned at once and nothing changes, so the call can be repeated at
    will.  When no open connection is stored, a call constructs a new socket
    and stores it; a second call made before that socket opens constructs
    another one, so the two callers wait for different sockets. *)
Theorem getWebSocketConnection_reuses_only_open st :
  (∀ c w, wsConnection st = Some c → sockets st !! c = Some w →
          readyState w = OPEN →
          getWebSocketConnection st = (Normal (Stored c), st)) ∧
  ((∀ c w, wsConnection st = Some c → sockets st !! c = Some w →
           readyState w ≠ OPEN) →
   ∃ st1 st2,
     getWebSocketConnection st
     = (Normal (Opening (length (sockets st))), st1) ∧
     getWebSocketConnection st1
     = (Normal (Opening (S (length (sockets st)))), st2) ∧
     wsConnection st1 = Some (length (sockets st)) ∧
     wsConnection st2 = Some (S (length (sockets st))) ∧
     length (sockets st1) = S (length (sockets st)) ∧
     length (sockets st2) = S (S (length (sockets st))) ∧
     (readyState <$> sockets st1 !! length (sockets st)) = Some CONNECTING).
Proof.
  split; [apply getWebSocketConnection_stored|].
  intros Hclosed. eexists _, _.
  split; [by apply getWebSocketConnection_opening|].
  match goal with |- getWebSocketConnection ?s = _ ∧ _ => set (st1 := s) end.
  assert (length (sockets st1) = S (length (sockets st))) as Hlen.
  { subst st1. simpl. rewrite length_app. simpl. lia. }
  assert (∃ w, sockets st1 !! length (sockets st) = Some w ∧
               readyState w = CONNECTING) as (w & Hw & Hconnecting).
  { subst st1. simpl. eexists. split.
    - rewrite lookup_app_r by lia. rewrite Nat.sub_diag. reflexivity.
    - done. }
  split.
  { rewrite getWebSocketConnection_opening; [by rewrite Hlen|].
    intros c w' Hc Hw'. simpl in Hc. injection Hc as <-.
    rewrite Hw in Hw'. injection Hw' as <-. by rewrite Hconnecting. }
  clear Hlen Hw Hconnecting. subst st1. simpl.
  rewrite !length_app. simpl. rewrite lookup_app_r by lia.
  rewrite Nat.sub_diag. simpl. repeat split; try done; lia.
Qed.

(** ** Registration *)

Lemma executeCommand_resume_cases ws command now st :
  let p := promises st in
  let r := executeCommand_resume ws command now st in
  r.1 = Normal p ∧
  wsCallbacks r.2
  = <[messageId now := {| output := []; complete := false;
                          resolve := p; reject := p |}]> (wsCallbacks st) ∧
  promises r.2 = S p ∧
  ((settled r.2 = settled st ∧
    timers r.2 = timers st ++ [{| timer_messageId := messageId now;
                                  timer_resolve := p |}]) ∨
   (∃ e, settled r.2 = settled st ++ [Reject p e] ∧ timers r.2 = timers st)).
Proof.
  unfold executeCommand_resume, new_Promise, WebSocket_send, setTimeout.
  step_monad.
  destruct ws as [s|]; simpl; [|by eauto 10].
  destruct (sockets st !! s) as [w|]; simpl; [|by eauto 10].
  destruct (send_error (readyState w)); simpl; by eauto 10.
Qed.

(** C5 on the code.  Two commands whose executors read the same clock value
    get the same message id: the second registration replaces the entry of
    the first, although the two promises differ. *)
Theorem same_clock_reading_same_id ws1 ws2 command1 command2 now st :
  let r1 := executeCommand_resume ws1 command1 now st in
  let r2 := executeCommand_resume ws2 command2 now r1.2 in
  r1.1 = Normal (promises st) ∧
  r2.1 = Normal (S (promises st)) ∧
  (resolve <$> wsCallbacks r1.2 !! messageId now) = Some (promises st) ∧
  (resolve <$> wsCallbacks r2.2 !! messageId now) = Some (S (promises st)) ∧
  dom (wsCallbacks r2.2) = dom (wsCallbacks r1.2).
Proof.
  intros r1 r2.
  destruct (executeCommand_resume_cases ws1 command1 now st)
    as (Hp1 & Ht1 & Hn1 & _).
  destruct (executeCommand_resume_cases ws2 command2 now r1.2)
    as (Hp2 & Ht2 & Hn2 & _).
  fold r1 in Hp1, Ht1, Hn1, Hp2, Ht2, Hn2. fold r2 in Hp2, Ht2, Hn2.
  rewrite Hn1 in Hp2, Ht2.
  split; [done|]. split; [done|].
  rewrite Ht2, Ht1, !lookup_insert_eq. repeat split.
  rewrite dom_insert_lookup_L; [done|]. rewrite lookup_insert_eq. eauto.
Qed.

(** ** The deadline closure and the timer that runs it *)

Lemma timeout_callback_cases t st :
  let r := timeout_callback t st in
  timers r.2 = timers st ∧ promises r.2 = promises st ∧
  ((wsCallbacks r.2 = wsCallbacks st ∧ settled r.2 = settled st ∧
    ∀ cb, wsCallbacks st !! timer_messageId t = Some cb → complete cb = true)
   ∨
   (∃ cb, wsCallbacks st !! timer_messageId t = Some cb ∧
          complete cb = false ∧
          wsCallbacks r.2 = delete (timer_messageId t) (wsCallbacks st) ∧
          (settled r.2 = settled st ∨
           ∃ text, settled r.2
                   = settled st ++ [Resolve (timer_resolve t) text]))).
Proof.
  step_monad.
  destruct (wsCallbacks st !! timer_messageId t) as [cb|] eqn:Hcb; simpl.
  2: { repeat split. left. by repeat split. }
  destruct (complete cb) eqn:Hcomplete; simpl.
  { repeat split. left. repeat split. congruence. }
  rewrite delete_alter_eq.
  destruct (Array_join Number_toString (output cb) LF); simpl;
    (repeat split; right; exists cb; by eauto 10).
Qed.

Lemma fire_armed k t st :
  timers st !! k = Some t →
  fire k st = timeout_callback t (set_timers (delete k (timers st)) st).
Proof. intros Hk. unfold fire, bind, gets, modify. by rewrite Hk. Qed.

Lemma fire_unarmed k st :
  timers st !! k = None → fire k st = (Normal tt, st).
Proof. intros Hk. unfold fire, bind, gets, ret. by rewrite Hk. Qed.

(** ** Every step has one of the listed effects *)

Lemma dispatch_effect ev i cb ty content st :
  wsCallbacks st !! i = Some cb →
  effect ev st (dispatch i cb ty content st).
Proof.
  intros Hcb. unfold dispatch.
  destruct (strict_eq_string ty "stdout" || strict_eq_string ty "stderr").
  { by eapply effect_append. }
  destruct (strict_eq_string ty "system" || strict_eq_string ty "error");
    [|by apply effect_quiet].
  destruct (Array_join Number_toString (output cb) LF) as [out|];
    [destruct (ToString Number_toString content) as [text|]|];
    eapply effect_terminal; simpl; eauto.
Qed.

Lemma effect_after_log ev st st' entries :
  effect ev (set_logged entries st) st' → effect ev st st'.
Proof.
  intros Heffect.
  inversion Heffect; subst; simpl in *;
    [ by eapply effect_quiet | by eapply effect_append
    | by eapply effect_terminal | by eapply effect_deadline
    | by eapply effect_register ].
Qed.

Lemma getWebSocketConnection_quiet st :
  let st' := (getWebSocketConnection st).2 in
  wsCallbacks st' = wsCallbacks st ∧ settled st' = settled st ∧
  timers st' = timers st ∧ promises st' = promises st.
Proof.
  unfold getWebSocketConnection, bind, gets, ret, new_WebSocket, modify.
  destruct (wsConnection st) as [c|]; simpl; [|done].
  destruct (sockets st !! c) as [w|]; simpl; [|done].
  by destruct (readyState w).
Qed.

Lemma step_effect ev st : effect ev st (step ev st).
Proof.
  unfold step, exec. destruct ev as [command|ws command now|data|k|s|s|s];
    simpl.
  - unfold bind, executeCommand.
    destruct (negb (truthy_string command)).
    { by apply effect_quiet. }
    pose proof (getWebSocketConnection_quiet st) as (? & ? & ? & ?).
    destruct (getWebSocketConnection st) as [[c|e] st'];
      by apply effect_quiet.
  - pose proof (executeCommand_resume_cases ws command now st)
      as (Hp & Ht & Hn & Hs).
    unfold bind, ret.
    destruct (executeCommand_resume ws command now st) as [[p|e] st'];
      simpl in *; by apply effect_register.
  - destruct (onmessage_cases data st) as [_ [Hlog | Hhit]].
    + destruct (logs_only_fields _ _ Hlog) as (? & ? & ? & ? & _).
      by apply effect_quiet.
    + destruct Hhit as (message & i & cb & ty & content & _ & _ & _ & Hcb
                        & _ & _ & ->).
      eapply effect_after_log. by apply dispatch_effect.
  - destruct (timers st !! k) as [t|] eqn:Hk.
    + rewrite (fire_armed _ _ _ Hk).
      pose proof (timeout_callback_cases t
                    (set_timers (delete k (timers st)) st))
        as (Ht & Hn & Hcases).
      by eapply effect_deadline.
    + rewrite (fire_unarmed _ _ Hk). by apply effect_quiet.
  - by apply effect_quiet.
  - by apply effect_quiet.
  - by apply effect_quiet.
Qed.

(** ** What holds in every state the tool can be in *)

Lemma effect_steady ev st st' : effect ev st st' → steady st → steady st'.
Proof.
  intros Heffect [Hwaiting Hids].
  inversion Heffect as
    [? ? ? Ht Hs Hm Hn | ? ? ? i cb x Hcb Ht Hs Hm Hn
    | ? ? ? i cb Hcb Ht Hs Hm Hn | k t ? ? Hk Hm Hn Hcases
    | ws command now ? ? Ht Hn Hcases]; subst; split.
  - intros i cb. rewrite Ht. apply Hwaiting.
  - intros t. rewrite Hm. apply Hids.
  - intros j cb'. rewrite Ht. intros [[<- <-] | [_ Hj]]%lookup_insert_Some.
    + simpl. by apply (Hwaiting i).
    + by apply (Hwaiting j).
  - intros t. rewrite Hm. apply Hids.
  - intros j cb'. rewrite Ht. intros [_ Hj]%lookup_delete_Some.
    by apply (Hwaiting j).
  - intros t. rewrite Hm. apply Hids.
  - intros j cb'. destruct Hcases as [(-> & _) | (cb & _ & _ & -> & _)].
    + apply Hwaiting.
    + intros [_ Hj]%lookup_delete_Some. by apply (Hwaiting j).
  - intros t'. rewrite Hm. intros Hin%list_elem_of_delete_inv.
    by apply Hids.
  - intros j cb'. rewrite Ht. intros [[<- <-] | [_ Hj]]%lookup_insert_Some.
    + done.
    + by apply (Hwaiting j).
  - intros t. destruct Hcases as [[_ ->] | (e & _ & ->)]; [|by apply Hids].
    intros [Hin | ->%list_elem_of_singleton]%elem_of_app; [by apply Hids|].
    apply Number_toString_nonempty.
Qed.

Lemma steady_constructed u token : steady (constructed u token).
Proof.
  split.
  - intros i cb. simpl. by rewrite lookup_empty.
  - intros t. simpl. by intros ?%elem_of_nil.
Qed.

Lemma run_steady evs st : steady st → steady (run evs st).
Proof.
  revert st. induction evs as [|ev evs IH]; intros st Hst; [done|].
  simpl. apply IH. by eapply effect_steady; [apply step_effect|].
Qed.

(** ** A terminal frame and the deadline, in either order *)

Lemma message_absent data st i :
  frame_field data "id" = Some (VString i) →
  wsCallbacks st !! i = None →
  wsCallbacks (step (Message data) st) = wsCallbacks st ∧
  settled (step (Message data) st) = settled st ∧
  timers (step (Message data) st) = timers st.
Proof.
  intros Hid Hnone.
  destruct (onmessage_miss data st) as (_ & Hlog).
  { intros id. rewrite Hid. intros [= <-]. simpl. rewrite Hnone.
    apply bool_decide_eq_false_2. by intros [? ?]. }
  destruct (logs_only_fields _ _ Hlog) as (? & ? & ? & _). done.
Qed.

Lemma message_terminal data st i ty :
  i ≠ "" →
  frame_field data "id" = Some (VString i) →
  frame_field data "type" = Some (VString ty) →
  ty = "system" ∨ ty = "error" →
  wsCallbacks (step (Message data) st) = delete i (wsCallbacks st) ∧
  timers (step (Message data) st) = timers st ∧
  length (settled (step (Message data) st)) ≤ S (length (settled st)).
Proof.
  intros Hne Hid Hty Hterminal.
  destruct (wsCallbacks st !! i) as [cb|] eqn:Hcb.
  2: { destruct (message_absent _ _ _ Hid Hcb) as (-> & -> & ->).
       rewrite delete_id by done. repeat split. lia. }
  destruct (frame_field_inv _ _ _ Hid) as (message & Hparse & Hid').
  destruct (frame_fields_same_message _ _ _ _ _ _ Hparse Hid Hty)
    as [_ Hty'].
  destruct (Get_total _ _ _ "content" Hid') as [content Hcontent].
  unfold step, exec. simpl.
  rewrite (onmessage_addressed _ _ _ _ _ _ _ Hparse Hid' Hne Hcb Hty'
             Hcontent).
  unfold dispatch.
  assert (strict_eq_string (VString ty) "stdout"
          || strict_eq_string (VString ty) "stderr" = false) as ->.
  { by destruct Hterminal as [-> | ->]. }
  assert (strict_eq_string (VString ty) "system"
          || strict_eq_string (VString ty) "error" = true) as ->.
  { by destruct Hterminal as [-> | ->]. }
  destruct (Array_join Number_toString (output cb) LF) as [out|];
    [destruct (ToString Number_toString content) as [text|]|];
    simpl; repeat split; rewrite ?length_app; simpl; lia.
Qed.

Lemma deadline_absent k t st :
  timers st !! k = Some t →
  wsCallbacks st !! timer_messageId t = None →
  wsCallbacks (step (Deadline k) st) = wsCallbacks st ∧
  settled (step (Deadline k) st) = settled st.
Proof.
  intros Hk Hnone. unfold step, exec. simpl. rewrite (fire_armed _ _ _ Hk).
  destruct (timeout_callback_cases t (set_timers (delete k (timers st)) st))
    as (_ & _ & [(-> & -> & _) | (cb & Hcb & _)]); [done|].
  simpl in Hcb. congruence.
Qed.

Lemma deadline_waiting k t st :
  all_waiting st →
  timers st !! k = Some t →
  wsCallbacks (step (Deadline k) st)
  = delete (timer_messageId t) (wsCallbacks st) ∧
  length (settled (step (Deadline k) st)) ≤ S (length (settled st)).
Proof.
  intros Hwaiting Hk. unfold step, exec. simpl. rewrite (fire_armed _ _ _ Hk).
  destruct (timeout_callback_cases t (set_timers (delete k (timers st)) st))
    as (_ & _ & [(-> & -> & Hdone) | (cb & Hcb & _ & -> & Hcalls)]);
    simpl in *.
  - destruct (wsCallbacks st !! timer_messageId t) as [cb|] eqn:Hcb.
    + specialize (Hdone cb eq_refl). specialize (Hwaiting _ _ Hcb).
      congruence.
    + rewrite delete_id by done. split; [done|lia].
  - split; [done|].
    destruct Hcalls as [-> | [text ->]]; rewrite ?length_app; simpl; lia.
Qed.

(** The race of one command's frame and deadline.  In any state the tool
    can be in, take an armed deadline and a [system] or [error] frame
    carrying the same message id, and let them run in either order.  Whichever runs second changes neither the table
    nor the calls made on promise handles; already after the first the id
    is out of the table, which is otherwise as before; and at most one call
    of a handle is added in all. *)
Theorem resolve_once evs u token k t data :
  let st := run evs (constructed u token) in
  timers st !! k = Some t →
  frame_field data "id" = Some (VString (timer_messageId t)) →
  frame_field data "type" = Some (VString "system") ∨
  frame_field data "type" = Some (VString "error") →
  let a1 := step (Message data) st in
  let a2 := step (Deadline k) a1 in
  let b1 := step (Deadline k) st in
  let b2 := step (Message data) b1 in
  (wsCallbacks a2 = wsCallbacks a1 ∧ settled a2 = settled a1) ∧
  (wsCallbacks b2 = wsCallbacks b1 ∧ settled b2 = settled b1) ∧
  wsCallbacks a1 = delete (timer_messageId t) (wsCallbacks st) ∧
  wsCallbacks b1 = delete (timer_messageId t) (wsCallbacks st) ∧
  length (settled a2) ≤ S (length (settled st)) ∧
  length (settled b2) ≤ S (length (settled st)).
Proof.
  intros st Hk Hid Hty a1 a2 b1 b2.
  destruct (run_steady evs _ (steady_constructed u token))
    as [Hwaiting Hids].
  fold st in Hwaiting, Hids.
  assert (timer_messageId t ≠ "") as Hne.
  { apply Hids. by eapply list_elem_of_lookup_2. }
  assert (∃ ty, frame_field data "type" = Some (VString ty) ∧
                (ty = "system" ∨ ty = "error")) as (ty & Hty' & Hterminal).
  { destruct Hty; eauto. }
  destruct (message_terminal data st _ ty Hne Hid Hty' Hterminal)
    as (Ha1 & Hta1 & Hla1).
  fold a1 in Ha1, Hta1, Hla1.
  destruct (deadline_absent k t a1) as [Ha2 Hsa2].
  { by rewrite Hta1. }
  { rewrite Ha1. apply lookup_delete_eq. }
  fold a2 in Ha2, Hsa2.
  destruct (deadline_waiting k t st Hwaiting Hk) as [Hb1 Hlb1].
  fold b1 in Hb1, Hlb1.
  destruct (message_absent data b1 _ Hid) as (Hb2 & Hsb2 & _).
  { rewrite Hb1. apply lookup_delete_eq. }
  fold b2 in Hb2, Hsb2.
  rewrite Hsa2, Hsb2. done.
Qed.

(** ** A message id that comes back *)

(** A registration on a socket that accepts the frame. *)
Lemma Resume_sent ws w command now st :
  sockets st !! ws = Some w →
  send_error (readyState w) = None →
  let st' := step (Resume (Some ws) command now) st in
  wsCallbacks st'
  = <[messageId now := {| output := []; complete := false;
                          resolve := promises st; reject := promises st |}]>
      (wsCallbacks st) ∧
  promises st' = S (promises st) ∧
  settled st' = settled st ∧
  timers st' = timers st ++ [{| timer_messageId := messageId now;
                                timer_resolve := promises st |}] ∧
  ∃ w', sockets st' !! ws = Some w' ∧ readyState w' = readyState w.
Proof.
  intros Hw Hsend. unfold step, exec. simpl.
  unfold executeCommand_resume, new_Promise, WebSocket_send, setTimeout,
    try_catch, bind, gets, modify, ret, throw, call_reject. simpl.
  rewrite Hw. simpl. rewrite Hsend. simpl.
  split; [done|]. split; [done|]. split; [done|]. split; [done|].
  exists {| url := url w; readyState := readyState w;
            sent := sent w ++ [JSON_stringify
                                 (command_message (messageId now) command)] |}.
  split; [|done].
  rewrite list_lookup_insert_eq; [done|]. by eapply lookup_lt_Some.
Qed.

(** A [system] or [error] frame with string content for a command that has
    no output yet. *)
Lemma Message_first_frame data now p ty text st :
  wsCallbacks st !! messageId now
  = Some {| output := []; complete := false; resolve := p; reject := p |} →
  frame_field data "id" = Some (VString (messageId now)) →
  frame_field data "type" = Some (VString ty) →
  ty = "system" ∨ ty = "error" →
  frame_field data "content" = Some (VString text) →
  let st' := step (Message data) st in
  wsCallbacks st' = delete (messageId now) (wsCallbacks st) ∧
  settled st' = settled st ++ [Resolve p (LF +:+ text)] ∧
  timers st' = timers st ∧ promises st' = promises st ∧
  sockets st' = sockets st.
Proof.
  intros Hcb Hid Hty Hterminal Hcontent. unfold step, exec. simpl.
  destruct (onmessage_pending _ _ _ _ _ Hcb Hid Hty) as (c & Hc & ->).
  rewrite Hcontent in Hc. injection Hc as <-.
  unfold dispatch. by destruct Hterminal as [-> | ->].
Qed.

(** The deadline at position [k] finds a callback without output under the
    id it captured. *)
Lemma Deadline_takes_entry k t cb st :
  timers st !! k = Some t →
  wsCallbacks st !! timer_messageId t = Some cb →
  complete cb = false →
  output cb = [] →
  let st' := step (Deadline k) st in
  wsCallbacks st' = delete (timer_messageId t) (wsCallbacks st) ∧
  settled st' = settled st ++ [Resolve (timer_resolve t) timeout_text] ∧
  timers st' = delete k (timers st) ∧ promises st' = promises st.
Proof.
  intros Hk Hcb Hwaiting Hout. unfold step, exec. simpl.
  rewrite (fire_armed _ _ _ Hk). step_monad.
  rewrite Hcb, Hwaiting. simpl. rewrite Hout. simpl.
  rewrite delete_alter_eq, append_empty_r. done.
Qed.

(** C1 on the code.  A command is sent at the clock reading [now], and a
    [system] or [error] frame resolves its promise [p] and removes its
    entry; its deadline stays armed.  A second command is then sent at the
    same reading and waits under the same message id.  When the deadline of
    the first command goes off, after the terminal frame of that command,
    it is not without effect: it finds the entry of the second command,
    removes it, and calls the [resolve] it captured, that of [p], a second
    time.  The promise of the second command has no handle called, and
    neither a terminal frame for the id nor the deadline still armed calls
    one afterwards. *)
Theorem stale_deadline_resolves_again ws w command1 command2 now data ty
    text st :
  sockets st !! ws = Some w →
  send_error (readyState w) = None →
  frame_field data "id" = Some (VString (messageId now)) →
  frame_field data "type" = Some (VString ty) →
  ty = "system" ∨ ty = "error" →
  frame_field data "content" = Some (VString text) →
  let p := promises st in
  let k := length (timers st) in
  let st1 := run [Resume (Some ws) command1 now; Message data] st in
  let st2 := run [Resume (Some ws) command1 now; Message data;
                  Resume (Some ws) command2 now] st in
  let st3 := run [Resume (Some ws) command1 now; Message data;
                  Resume (Some ws) command2 now; Deadline k] st in
  (settled st1 = settled st ++ [Resolve p (LF +:+ text)] ∧
   wsCallbacks st1 !! messageId now = None ∧
   timers st1 !! k = Some {| timer_messageId := messageId now;
                             timer_resolve := p |}) ∧
  wsCallbacks st2 !! messageId now
  = Some {| output := []; complete := false;
            resolve := S p; reject := S p |} ∧
  settled st3
  = settled st ++ [Resolve p (LF +:+ text); Resolve p timeout_text] ∧
  wsCallbacks st3 !! messageId now = None ∧
  resolutions p st3 = resolutions p st + 2 ∧
  resolutions (S p) st3 = resolutions (S p) st ∧
  settled (run [Message data; Deadline k] st3) = settled st3.
Proof.
  intros Hw Hsend Hid Hty Hterminal Hcontent p k st1 st2 st3.
  assert (st2 = step (Resume (Some ws) command2 now) st1) as E2 by done.
  assert (st3 = step (Deadline k) st2) as E3 by done.
  clearbody st2 st3.
  set (t1 := {| timer_messageId := messageId now; timer_resolve := p |}).
  set (t2 := {| timer_messageId := messageId now; timer_resolve := S p |}).
  destruct (Resume_sent ws w command1 now st Hw Hsend)
    as (Hc0 & Hn0 & Hs0 & Hm0 & w' & Hw' & Hready).
  set (st0 := step (Resume (Some ws) command1 now) st) in *.
  destruct (Message_first_frame data now p ty text st0)
    as (Hc1 & Hs1 & Hm1 & Hn1 & Hk1); try done.
  { rewrite Hc0. apply lookup_insert_eq. }
  change (step (Message data) st0) with st1 in *.
  destruct (Resume_sent ws w' command2 now st1)
    as (Hc2 & Hn2 & Hs2 & Hm2 & _).
  { by rewrite Hk1. }
  { by rewrite Hready. }
  rewrite <-E2 in Hc2, Hn2, Hs2, Hm2.
  rewrite Hn1, Hn0 in Hc2, Hn2, Hm2. fold p in Hc2, Hn2, Hm2, Hm0.
  rewrite Hm1, Hm0 in Hm2. fold t1 t2 in Hm0, Hm2.
  assert (timers st2 !! k = Some t1) as Hk2.
  { rewrite Hm2, <-app_assoc. by apply list_lookup_middle. }
  destruct (Deadline_takes_entry k t1
              {| output := []; complete := false;
                 resolve := S p; reject := S p |} st2 Hk2)
    as (Hc3 & Hs3 & Hm3 & Hn3); [|done..|].
  { rewrite Hc2. apply lookup_insert_eq. }
  rewrite <-E3 in Hc3, Hs3, Hm3, Hn3.
  assert (settled st3
          = settled st ++ [Resolve p (LF +:+ text); Resolve p timeout_text])
    as Hsettled.
  { rewrite Hs3, Hs2, Hs1, Hs0, <-app_assoc. done. }
  assert (wsCallbacks st3 !! messageId now = None) as Hgone.
  { rewrite Hc3. apply lookup_delete_eq. }
  split; [|split; [|split; [|split; [|split; [|split]]]]].
  - split; [by rewrite Hs1, Hs0|]. split.
    + rewrite Hc1. apply lookup_delete_eq.
    + rewrite Hm1, Hm0. by apply list_lookup_middle.
  - rewrite Hc2. apply lookup_insert_eq.
  - done.
  - done.
  - unfold resolutions. rewrite Hsettled, filter_app, length_app. f_equal.
    rewrite !filter_cons_True; [done|simpl..];
      by apply bool_decide_eq_true_2.
  - unfold resolutions. rewrite Hsettled, filter_app, length_app.
    rewrite !filter_cons_False; [simpl; lia|simpl..];
      rewrite bool_decide_eq_false_2; [done|lia|done|lia].
  - simpl.
    destruct (message_absent data st3 _ Hid Hgone) as (Hc4 & Hs4 & Hm4).
    assert (timers (step (Message data) st3) !! k = Some t2) as Hk4.
    { rewrite Hm4, Hm3, Hm2, <-app_assoc. unfold k.
      change ([t1] ++ [t2]) with (t1 :: [t2]). rewrite delete_middle.
      by apply list_lookup_middle. }
    destruct (deadline_absent k t2 _ Hk4) as [_ Hs5].
    { rewrite Hc4. exact Hgone. }
    by rewrite Hs5.
Qed.

(** ** Resolve-once along a whole run *)

Lemma resolutions_same p st st' :
  settled st' = settled st → resolutions p st' = resolutions p st.
Proof. unfold resolutions. by intros ->. Qed.

Lemma resolutions_Resolve p q text st st' :
  settled st' = settled st ++ [Resolve q text] →
  resolutions p st'
  = resolutions p st + (if decide (q = p) then 1 else 0).
Proof.
  unfold resolutions. intros ->. rewrite filter_app, length_app. f_equal.
  destruct (decide (q = p)) as [->|Hne].
  - rewrite filter_cons_True; [done|]. simpl. by apply bool_decide_eq_true_2.
  - rewrite filter_cons_False; [done|]. simpl.
    by rewrite bool_decide_eq_false_2.
Qed.

Lemma resolutions_Reject p q e st st' :
  settled st' = settled st ++ [Reject q e] →
  resolutions p st' = resolutions p st.
Proof.
  unfold resolutions. intros ->. rewrite filter_app, length_app.
  rewrite filter_cons_False; [simpl; lia|]. done.
Qed.

(** An entry leaves the table, possibly with a call of its [resolve]. *)
Lemma history_removal ids st st' i cb :
  history ids st →
  wsCallbacks st !! i = Some cb →
  wsCallbacks st' = delete i (wsCallbacks st) →
  (settled st' = settled st ∨
   ∃ text, settled st' = settled st ++ [Resolve (resolve cb) text]) →
  (∀ t, t ∈ timers st' → t ∈ timers st) →
  promises st' = promises st →
  history ids st'.
Proof.
  intros (Hentries & Htimers & Hinj & Honce & Hfresh) Hcb Ht Hs Hm Hn.
  destruct (Hentries _ _ Hcb) as (_ & Hlt & Hzero).
  assert (∀ p, resolutions p st'
               = resolutions p st ∨
               (p = resolve cb ∧ resolutions p st' = 1)) as Hcount.
  { intros p. destruct Hs as [Hs | [text Hs]].
    - left. by apply resolutions_same.
    - rewrite (resolutions_Resolve _ _ _ _ _ Hs).
      destruct (decide (resolve cb = p)) as [<-|Hne]; [right|left; lia].
      split; [done|lia]. }
  split; [|split; [|split; [|split]]].
  - intros j cb'. rewrite Ht, Hn. intros [Hne Hj]%lookup_delete_Some.
    destruct (Hentries _ _ Hj) as (? & ? & Hz).
    repeat split; try done.
    destruct (Hcount (resolve cb')) as [-> | [Heq _]]; [done|].
    destruct Hne. by apply (Hinj _ _ _ _ Hcb Hj).
  - intros t Hin. destruct (Htimers t (Hm t Hin)) as [? Hown].
    split; [done|].
    intros cb'. rewrite Ht. intros [_ Hj]%lookup_delete_Some.
    by apply Hown.
  - intros j j' cb1 cb2. rewrite Ht.
    intros [_ H1]%lookup_delete_Some [_ H2]%lookup_delete_Some.
    by apply Hinj.
  - intros p. destruct (Hcount p) as [-> | [_ ->]]; [apply Honce|lia].
  - intros p Hp. rewrite Hn in Hp.
    destruct (Hcount p) as [-> | [-> _]]; [by apply Hfresh|lia].
Qed.

Lemma history_more_ids ids ids' st :
  (∀ i, i ∈ ids → i ∈ ids') → history ids st → history ids' st.
Proof.
  intros Hsub (Hentries & Htimers & Hinj & Honce & Hfresh).
  split; [|split; [|by repeat split]].
  - intros i cb Hi. destruct (Hentries _ _ Hi) as (? & ? & ?).
    repeat split; try done. by apply Hsub.
  - intros t Hin. destruct (Htimers t Hin) as [? ?].
    split; [by apply Hsub|done].
Qed.

Lemma history_fewer_timers ids st st' :
  history ids st →
  wsCallbacks st' = wsCallbacks st → settled st' = settled st →
  (∀ t, t ∈ timers st' → t ∈ timers st) → promises st' = promises st →
  history ids st'.
Proof.
  intros (Hentries & Htimers & Hinj & Honce & Hfresh) Ht Hs Hm Hn.
  unfold history. rewrite Ht, Hn.
  split; [|split; [|split; [|split]]].
  - intros i cb Hi. rewrite (resolutions_same _ _ _ Hs). by apply Hentries.
  - intros t Hin. by apply Htimers, Hm.
  - done.
  - intros p. rewrite (resolutions_same _ _ _ Hs). apply Honce.
  - intros p. rewrite (resolutions_same _ _ _ Hs). apply Hfresh.
Qed.

Lemma history_append ids st st' i cb x :
  history ids st →
  wsCallbacks st !! i = Some cb →
  wsCallbacks st' = <[i := push_output x cb]> (wsCallbacks st) →
  settled st' = settled st → timers st' = timers st →
  promises st' = promises st →
  history ids st'.
Proof.
  intros (Hentries & Htimers & Hinj & Honce & Hfresh) Hcb Ht Hs Hm Hn.
  assert (∀ j cb', wsCallbacks st' !! j = Some cb' →
            ∃ cb0, wsCallbacks st !! j = Some cb0 ∧ resolve cb' = resolve cb0)
    as Hback.
  { intros j cb'. rewrite Ht.
    intros [[<- <-] | [_ Hj]]%lookup_insert_Some; eauto. }
  unfold history. rewrite Hm, Hn.
  split; [|split; [|split; [|split]]].
  - intros j cb' (cb0 & Hj & ->)%Hback.
    rewrite (resolutions_same _ _ _ Hs). by apply Hentries.
  - intros t Hin. destruct (Htimers t Hin) as [? Hown]. split; [done|].
    intros cb' (cb0 & Hj & ->)%Hback. by apply Hown.
  - intros j j' cb1 cb2 (c1 & H1 & ->)%Hback (c2 & H2 & ->)%Hback.
    by apply Hinj.
  - intros p. rewrite (resolutions_same _ _ _ Hs). apply Honce.
  - intros p. rewrite (resolutions_same _ _ _ Hs). apply Hfresh.
Qed.

Lemma history_register ids st st' now :
  history ids st →
  messageId now ∉ ids →
  wsCallbacks st'
  = <[messageId now := {| output := []; complete := false;
                          resolve := promises st;
                          reject := promises st |}]> (wsCallbacks st) →
  promises st' = S (promises st) →
  ((settled st' = settled st ∧
    timers st' = timers st ++ [{| timer_messageId := messageId now;
                                  timer_resolve := promises st |}]) ∨
   (∃ e, settled st' = settled st ++ [Reject (promises st) e] ∧
         timers st' = timers st)) →
  history (messageId now :: ids) st'.
Proof.
  intros (Hentries & Htimers & Hinj & Honce & Hfresh) Hnew Ht Hn Hcases.
  assert (∀ p, resolutions p st' = resolutions p st) as Hcount.
  { intros p. destruct Hcases as [[Hs _] | (e & Hs & _)].
    - by apply resolutions_same.
    - by eapply resolutions_Reject. }
  assert (∀ t, t ∈ timers st' →
            t ∈ timers st ∨
            t = {| timer_messageId := messageId now;
                   timer_resolve := promises st |}) as Harmed.
  { intros t. destruct Hcases as [[_ ->] | (e & _ & ->)]; [|by left].
    intros [? | ->%list_elem_of_singleton]%elem_of_app; by eauto. }
  assert (∀ j cb', wsCallbacks st' !! j = Some cb' →
            (j = messageId now ∧ resolve cb' = promises st) ∨
            (j ≠ messageId now ∧ wsCallbacks st !! j = Some cb'))
    as Hback.
  { intros j cb'. rewrite Ht.
    intros [[<- <-] | [? Hj]]%lookup_insert_Some; by eauto. }
  unfold history. rewrite Hn.
  split; [|split; [|split; [|split]]].
  - intros j cb' [[-> ->] | [_ Hj]]%Hback; rewrite Hcount.
    + split; [by left|]. split; [lia|]. by apply Hfresh.
    + destruct (Hentries _ _ Hj) as (? & ? & ?).
      split; [by right|]. split; [lia|done].
  - intros t [Hin | ->]%Harmed.
    + destruct (Htimers t Hin) as [Hid Hown]. split; [by right|].
      intros cb' [[Heq _] | [_ Hj]]%Hback; [|by apply Hown].
      destruct Hnew. by rewrite <-Heq.
    + simpl. split; [by left|].
      intros cb' [[_ ->] | [Hne _]]%Hback; done.
  - intros j j' cb1 cb2 [[-> H1] | [? H1]]%Hback [[-> H2] | [? H2]]%Hback
      Heq; try done.
    + destruct (Hentries _ _ H2) as (_ & Hlt & _). lia.
    + destruct (Hentries _ _ H1) as (_ & Hlt & _). lia.
    + by apply (Hinj _ _ _ _ H1 H2).
  - intros p. rewrite Hcount. apply Honce.
  - intros p Hp. rewrite Hcount. apply Hfresh. lia.
Qed.

Lemma effect_history ids ev st st' :
  effect ev st st' →
  (∀ i, i ∈ issued [ev] → i ∉ ids) →
  history ids st →
  history (issued [ev] ++ ids) st'.
Proof.
  intros Heffect Hnew Hhistory.
  inversion Heffect as
    [? ? ? Ht Hs Hm Hn | ? ? ? i cb x Hcb Ht Hs Hm Hn
    | ? ? ? i cb Hcb Ht Hs Hm Hn | k t ? ? Hk Hm Hn Hcases
    | ws command now ? ? Ht Hn Hcases]; subst.
  - apply (history_more_ids ids); [intros i ?; apply elem_of_app; by right|].
    apply (history_fewer_timers ids st); try done. intros t. by rewrite Hm.
  - apply (history_more_ids ids); [intros j ?; apply elem_of_app; by right|].
    by eapply history_append.
  - apply (history_more_ids ids); [intros j ?; apply elem_of_app; by right|].
    eapply history_removal; try done. intros t. by rewrite Hm.
  - simpl.
    assert (∀ t', t' ∈ timers st' → t' ∈ timers st) as Hsub.
    { intros t'. rewrite Hm. apply list_elem_of_delete_inv. }
    destruct Hcases as [(Ht & Hs & _) | (cb & Hcb & _ & Ht & Hs)].
    + by apply (history_fewer_timers ids st).
    + destruct Hhistory as (Hentries & Htimers & Hrest).
      destruct (Htimers t) as [_ Hown]; [by eapply list_elem_of_lookup_2|].
      rewrite <-(Hown cb Hcb) in Hs.
      by eapply (history_removal ids st st').
  - simpl. apply (history_register ids st st' now); try done.
    apply Hnew. simpl. by left.
Qed.

Lemma issued_cons ev evs : issued (ev :: evs) = issued [ev] ++ issued evs.
Proof. by destruct ev. Qed.

Lemma run_history evs ids st :
  history ids st →
  NoDup (issued evs) →
  (∀ i, i ∈ issued evs → i ∉ ids) →
  ∃ ids', history ids' (run evs st).
Proof.
  revert ids st. induction evs as [|ev evs IH]; intros ids st Hst Hnodup Hnew.
  { by exists ids. }
  rewrite issued_cons in Hnodup, Hnew.
  apply NoDup_app in Hnodup as (_ & Hdisjoint & Hnodup).
  simpl. apply (IH (issued [ev] ++ ids)); [|done|].
  - apply (effect_history ids ev st); [apply step_effect| |done].
    intros i Hi. apply Hnew, elem_of_app. by left.
  - intros i Hi [Hin | Hin]%elem_of_app.
    + by apply (Hdisjoint i).
    + apply (Hnew i); [|done]. apply elem_of_app. by right.
Qed.

Lemma history_constructed u token : history [] (constructed u token).
Proof.
  unfold history. simpl. split; [|split; [|split; [|split]]].
  - intros i cb. by rewrite lookup_empty.
  - by intros t ?%elem_of_nil.
  - intros i j cb cb'. by rewrite lookup_empty.
  - intros p. unfold resolutions. simpl. lia.
  - done.
Qed.

(** Resolve-once along a run.  When the message ids allocated along a run
    are pairwise distinct, no promise of [executeCommand] has its [resolve]
    handle called twice. *)
Theorem resolved_at_most_once evs u token p :
  NoDup (issued evs) →
  resolutions p (run evs (constructed u token)) ≤ 1.
Proof.
  intros Hnodup.
  destruct (run_history evs [] (constructed u token)) as (ids & Hhistory).
  - apply history_constructed.
  - done.
  - intros i _. apply not_elem_of_nil.
  - by destruct Hhistory as (_ & _ & _ & Honce & _).
Qed.

End Properties.

(** * The properties on a session *)

Section Session.
#[local] Existing Instance Sample.runtime.
Import Sample.

Lemma resolve_once_witness :
  settled (step (Deadline 0) (step (Message system_frame) listing))
  = [Resolve 0 ("total 0" +:+ LF +:+ "done")] ∧
  settled (step (Message system_frame) (step (Deadline 0) listing))
  = [Resolve 0 ("Command execution timed out after 30 seconds. Partial output:"
                +:+ LF +:+ "total 0")].
Proof.
  destruct (resolve_once session "ws://localhost:8080/ws"
              (Some "test_auth_token") 0 listing_timer system_frame)
    as ((_ & Ha) & (_ & Hb) & _).
  - vm_compute. reflexivity.
  - vm_compute. reflexivity.
  - left. vm_compute. reflexivity.
  - split.
    + etransitivity; [exact Ha|]. vm_compute. reflexivity.
    + etransitivity; [exact Hb|]. vm_compute. reflexivity.
Defined.

(** The scenario of the specification: [ls -la], a [stdout] frame with
    [total 0], then a [system] frame with [done]. *)
Lemma terminal_frame_resolves_witness :
  (onmessage system_frame listing).1 = Normal tt ∧
  settled (onmessage system_frame listing).2
  = [Resolve 0 ("total 0" +:+ LF +:+ "done")] ∧
  wsCallbacks (onmessage system_frame listing).2 !! id0 = None.
Proof.
  destruct (terminal_frame_resolves system_frame listing tick
              listing_callback ["total 0"] "system" "done")
    as (Hret & Hsettled & _ & Hgone).
  - reflexivity.
  - reflexivity.
  - vm_compute. reflexivity.
  - vm_compute. reflexivity.
  - left. reflexivity.
  - vm_compute. reflexivity.
  - split; [exact Hret|]. split; [|exact Hgone].
    etransitivity; [exact Hsettled|]. vm_compute. reflexivity.
Defined.

Lemma deadline_resolves_with_partial_output_witness :
  settled (timeout_callback listing_timer listing).2
  = [Resolve 0 ("Command execution timed out after 30 seconds. Partial output:"
                +:+ LF +:+ "total 0")] ∧
  wsCallbacks (timeout_callback listing_timer listing).2 !! id0 = None.
Proof.
  destruct (deadline_resolves_with_partial_output listing_timer listing
              listing_callback ["total 0"])
    as (_ & Hsettled & _ & _ & Hgone).
  - reflexivity.
  - reflexivity.
  - reflexivity.
  - split; [|exact Hgone].
    etransitivity; [exact Hsettled|]. vm_compute. reflexivity.
Defined.

Lemma getWebSocketConnection_reuses_only_open_witness :
  getWebSocketConnection connected = (Normal (Stored 0), connected) ∧
  ∃ st1 st2,
    getWebSocketConnection fresh = (Normal (Opening 0), st1) ∧
    getWebSocketConnection st1 = (Normal (Opening 1), st2).
Proof.
  split.
  - apply (proj1 (getWebSocketConnection_reuses_only_open connected) 0
             {| url := "ws://localhost:8080/ws?token=test_auth_token";
                readyState := OPEN; sent := [] |});
      reflexivity.
  - destruct (proj2 (getWebSocketConnection_reuses_only_open fresh))
      as (st1 & st2 & H1 & H2 & _).
    + intros c w Hc. vm_compute in Hc. discriminate Hc.
    + exists st1, st2. split; [exact H1|exact H2].
Defined.

(** C4 as stated fails: two calls made before any socket has opened wait
    for two different sockets. *)
Lemma concurrent_calls_open_two_sockets : ¬ share_one_attempt fresh.
Proof.
  intros Hshare.
  destruct (Hshare _ _ _ _ eq_refl eq_refl) as [Hsame _].
  vm_compute in Hsame. discriminate Hsame.
Qed.

Lemma empty_command_rejected_witness :
  executeCommand (Some "") connected
  = (Throw (Error "Missing required field: command"), connected).
Proof. apply empty_command_rejected. right. reflexivity. Defined.

Lemma unknown_id_dropped_witness :
  wsCallbacks (onmessage late_frame listing).2 = wsCallbacks listing ∧
  settled (onmessage late_frame listing).2 = settled listing.
Proof.
  destruct (unknown_id_dropped late_frame listing) as (_ & _ & Ht & Hs).
  - intros id Hid. vm_compute in Hid. injection Hid as <-.
    vm_compute. reflexivity.
  - split; [exact Ht|exact Hs].
Defined.

Lemma only_terminal_frames_resolve_witness :
  settled (onmessage stdout_frame listing).2 = settled listing ∧
  (output <$> wsCallbacks (onmessage stdout_frame listing).2 !! id0)
  = Some [VString "total 0"; VString "total 0"] ∧
  dom (wsCallbacks (onmessage progress_frame listing).2)
  = dom (wsCallbacks listing).
Proof.
  destruct (only_terminal_frames_resolve stdout_frame listing)
    as [Hpartial _].
  destruct (Hpartial tick listing_callback "stdout" (VString "total 0"))
    as (_ & Ht & Hs).
  - reflexivity.
  - vm_compute. reflexivity.
  - vm_compute. reflexivity.
  - left. reflexivity.
  - vm_compute. reflexivity.
  - destruct (only_terminal_frames_resolve progress_frame listing)
      as [_ Hother].
    destruct Hother as [_ Hdom].
    + vm_compute. discriminate.
    + vm_compute. discriminate.
    + split; [exact Hs|]. split; [|exact Hdom].
      rewrite Ht. rewrite lookup_insert_eq. reflexivity.
Defined.

Lemma unparseable_frame_dropped_witness :
  onmessage "total 0" listing
  = (Normal tt,
     set_logged (logged listing
                 ++ [LogError "[AIConcert] WebSocket message parsing error:"])
                listing).
Proof. apply unparseable_frame_dropped. vm_compute. reflexivity. Defined.

Lemma unknown_type_ignored_witness :
  wsCallbacks (onmessage progress_frame listing).2 !! id0
  = Some listing_callback ∧
  settled (onmessage progress_frame listing).2 = settled listing.
Proof.
  destruct (unknown_type_ignored progress_frame listing tick
              listing_callback (VString "progress")) as (_ & Hcb & _ & Hs).
  - reflexivity.
  - vm_compute. reflexivity.
  - vm_compute. reflexivity.
  - intros Hin. repeat (apply elem_of_cons in Hin as [Hin | Hin];
                        [discriminate Hin|]).
    by apply elem_of_nil in Hin.
  - split; [exact Hcb|exact Hs].
Defined.

(** ** What a repeated message id does *)

(** Two commands sent at the same clock reading: the frame resolves the
    second promise only, and both deadlines then find nothing, so the first
    promise is never settled. *)
Example same_clock_reading_loses_a_command :
  settled (run [Resume (Some 0) "ls -la" tick; Resume (Some 0) "pwd" tick;
                Message system_frame; Deadline 0; Deadline 0] connected)
  = [Resolve 1 (LF +:+ "done")].
Proof. vm_compute. reflexivity. Qed.

(** A message id that comes back after its command was resolved: the
    deadline of the first command takes the entry of the second, and the
    first promise is resolved a second time. *)
Example reused_id_resolves_twice :
  resolutions 0 (run [Resume (Some 0) "ls -la" tick; Message system_frame;
                      Resume (Some 0) "pwd" tick; Deadline 0] connected)
  = 2.
Proof. vm_compute. reflexivity. Qed.

(** On the open socket [ls -la] is sent at [tick] and answered by a
    [system] frame; [pwd] is sent at the same reading; then the deadline of
    [ls -la] goes off. *)
Lemma stale_deadline_resolves_again_witness :
  settled (run [Resume (Some 0) "ls -la" tick; Message system_frame;
                Resume (Some 0) "pwd" tick; Deadline 0] connected)
  = [Resolve 0 (LF +:+ "done"); Resolve 0 timeout_text] ∧
  resolutions 1 (run [Resume (Some 0) "ls -la" tick; Message system_frame;
                      Resume (Some 0) "pwd" tick; Deadline 0] connected)
  = 0.
Proof.
  destruct (stale_deadline_resolves_again (RT := runtime) 0
              {| url := "ws://localhost:8080/ws?token=test_auth_token";
                 readyState := OPEN; sent := [] |}
              "ls -la" "pwd" tick system_frame "system" "done" connected)
    as (_ & _ & Hs & _ & _ & Hq & _).
  - reflexivity.
  - reflexivity.
  - reflexivity.
  - reflexivity.
  - left. reflexivity.
  - reflexivity.
  - split.
    + etransitivity; [exact Hs|]. reflexivity.
    + etransitivity; [exact Hq|]. reflexivity.
Defined.

(** The scenario [sleep 60] of the specification: no frame arrives. *)
Example deadline_without_output :
  settled (run [Resume (Some 0) "sleep 60" tick; Deadline 0] connected)
  = [Resolve 0 ("Command execution timed out after 30 seconds. Partial output:"
                +:+ LF)].
Proof. vm_compute. reflexivity. Qed.

End Session.

(** * Further properties of the socket side *)

Section Sockets.
Context `{RT : Runtime}.

Lemma dispatch_elsewhere i j cb ty content st :
  i ≠ j →
  wsCallbacks (dispatch i cb ty content st) !! j = wsCallbacks st !! j.
Proof.
  intros Hne. unfold dispatch.
  destruct (strict_eq_string ty "stdout" || strict_eq_string ty "stderr").
  { simpl. by rewrite lookup_insert_ne. }
  destruct (strict_eq_string ty "system" || strict_eq_string ty "error");
    [|done].
  destruct (Array_join Number_toString (output cb) LF) as [out|];
    [destruct (ToString Number_toString content) as [text|]|];
    simpl; by rewrite lookup_delete_ne.
Qed.

(** X2.  An event changes no entry of the table except the one stored under
    the message id the event is about: a frame under the id it carries, a
    deadline under the id its closure captured, a registration under the
    id it allocates; calls and transport events change none. *)
Theorem events_touch_only_their_entry ev st j :
  ¬ concerns ev st j →
  wsCallbacks (step ev st) !! j = wsCallbacks st !! j.
Proof.
  intros Hother. unfold step, exec.
  destruct ev as [command|ws command now|data|k|s|s|s]; simpl in *.
  - unfold bind, executeCommand.
    destruct (negb (truthy_string command)); [done|].
    pose proof (getWebSocketConnection_quiet st) as (Ht & _).
    destruct (getWebSocketConnection st) as [[c|e] st']; simpl in *;
      by rewrite Ht.
  - pose proof (executeCommand_resume_cases ws command now st)
      as (_ & Ht & _).
    unfold bind, ret.
    destruct (executeCommand_resume ws command now st) as [[p|e] st'];
      simpl in *; rewrite Ht; by rewrite lookup_insert_ne.
  - destruct (onmessage_cases data st) as [_ [Hlog | Hhit]].
    + destruct (logs_only_fields _ _ Hlog) as (-> & _). done.
    + destruct Hhit as (message & i & cb & ty & content & Hparse & Hid & _
                        & _ & _ & _ & ->).
      rewrite dispatch_elsewhere; [done|].
      intros <-. apply Hother. unfold frame_field. by rewrite Hparse.
  - destruct (timers st !! k) as [t|] eqn:Hk.
    + rewrite (fire_armed _ _ _ Hk).
      destruct (timeout_callback_cases t
                  (set_timers (delete k (timers st)) st))
        as (_ & _ & [(-> & _) | (cb & _ & _ & -> & _)]); [done|].
      simpl. rewrite lookup_delete_ne; [done|].
      intros Heq. apply Hother. by exists t.
    + by rewrite (fire_unarmed _ _ Hk).
  - done.
  - done.
  - done.
Qed.

Lemma partial_frame_appends i data content st cb :
  i ≠ "" →
  wsCallbacks st !! i = Some cb →
  partial_frame i data content →
  wsCallbacks (step (Message data) st)
  = <[i := push_output (VString content) cb]> (wsCallbacks st) ∧
  settled (step (Message data) st) = settled st.
Proof.
  intros Hne Hcb (Hid & Hty & Hcontent).
  destruct (frame_field_inv _ _ _ Hid) as (message & Hparse & Hid').
  assert (∃ ty, frame_field data "type" = Some (VString ty) ∧
                (ty = "stdout" ∨ ty = "stderr")) as (ty & Hty' & Hpartial).
  { destruct Hty; eauto. }
  destruct (frame_fields_same_message _ _ _ _ _ _ Hparse Hid Hty')
    as [_ Hty''].
  destruct (frame_fields_same_message _ _ _ _ _ _ Hparse Hid Hcontent)
    as [_ Hcontent'].
  unfold step, exec. simpl.
  rewrite (onmessage_addressed _ _ _ _ _ _ _ Hparse Hid' Hne Hcb Hty''
             Hcontent').
  unfold dispatch. by destruct Hpartial as [-> | ->].
Qed.

(** X3.  Output is kept in the order of arrival: after a sequence of
    [stdout] and [stderr] frames for a waiting command, its callback holds
    the fragments it had followed by the contents of the frames, in order,
    and no handle has been called. *)
Theorem fragments_kept_in_arrival_order now st cb frags
    (frames : list (string * string)) :
  wsCallbacks st !! messageId now = Some cb →
  output cb = VString <$> frags →
  Forall (λ f, partial_frame (messageId now) f.1 f.2) frames →
  ∃ cb',
    wsCallbacks (run (Message <$> frames.*1) st) !! messageId now = Some cb' ∧
    output cb' = VString <$> (frags ++ frames.*2) ∧
    resolve cb' = resolve cb ∧ complete cb' = complete cb ∧
    settled (run (Message <$> frames.*1) st) = settled st.
Proof.
  intros Hcb Hout Hframes. revert st cb frags Hcb Hout.
  induction Hframes as [|[data content] frames Hframe _ IH];
    intros st cb frags Hcb Hout.
  { exists cb. by rewrite app_nil_r. }
  rewrite !fmap_cons. cbn [run fst snd] in *.
  destruct (partial_frame_appends _ _ _ _ _ (Number_toString_nonempty now)
              Hcb Hframe) as [Ht Hs].
  destruct (IH (step (Message data) st) (push_output (VString content) cb)
              (frags ++ [content])) as (cb' & Hcb' & Hout' & Hr & Hc & Hs').
  { rewrite Ht. apply lookup_insert_eq. }
  { simpl. by rewrite Hout, fmap_app. }
  exists cb'. rewrite <-app_assoc in Hout'. rewrite Hs', Hs. done.
Qed.

(** X4.  Registration on a socket whose [send] throws: the promise is
    rejected with that error, no frame is recorded as sent and no deadline
    is armed, but the callback has already been stored and stays in the
    table.  On a socket that accepts the frame, the frame sent, the table
    key and the deadline carry the same message id, and nothing is
    settled. *)
Theorem registration_and_send st s w command now :
  sockets st !! s = Some w →
  let r := executeCommand_resume (Some s) command now st in
  let waiting := {| output := []; complete := false;
                    resolve := promises st; reject := promises st |} in
  r.1 = Normal (promises st) ∧
  wsCallbacks r.2 = <[messageId now := waiting]> (wsCallbacks st) ∧
  (∀ msg, send_error (readyState w) = Some msg →
     settled r.2 = settled st ++ [Reject (promises st) (Error msg)] ∧
     timers r.2 = timers st ∧ sockets r.2 = sockets st) ∧
  (send_error (readyState w) = None →
     settled r.2 = settled st ∧
     timers r.2 = timers st ++ [{| timer_messageId := messageId now;
                                   timer_resolve := promises st |}] ∧
     (sent <$> sockets r.2 !! s)
     = Some (sent w ++ [JSON_stringify
                          (command_message (messageId now) command)]) ∧
     ∀ s', s' ≠ s → sockets r.2 !! s' = sockets st !! s').
Proof.
  intros Hw r waiting. subst r.
  unfold executeCommand_resume, new_Promise, WebSocket_send, setTimeout,
    try_catch, bind, gets, modify, ret, throw, call_reject. simpl.
  rewrite Hw. simpl.
  destruct (send_error (readyState w)) as [msg|]; simpl;
    (split; [done|]; split; [done|]; split).
  - by intros msg' [= <-].
  - done.
  - done.
  - intros _. split; [done|]. split; [done|]. split.
    + rewrite list_lookup_insert_eq; [done|]. by eapply lookup_lt_Some.
    + intros s' Hne. by rewrite list_lookup_insert_ne.
Qed.

(** X5.  A close event on any socket leaves every waiting command as it is,
    with its callback, its deadline and no handle called, and forgets the
    stored connection, so that the next call of [getWebSocketConnection]
    constructs a new socket instead of handing out the closed one. *)
Theorem close_forgets_connection_only s st :
  let st' := step (TransportClose s) st in
  wsCallbacks st' = wsCallbacks st ∧ settled st' = settled st ∧
  timers st' = timers st ∧ wsConnection st' = None ∧
  (getWebSocketConnection st').1 = Normal (Opening (length (sockets st))).
Proof.
  unfold step, exec. simpl.
  unfold bind, set_readyState, onclose, logger_debug, modify. simpl.
  repeat split.
  unfold getWebSocketConnection, bind, gets, ret, new_WebSocket, modify.
  simpl. by rewrite length_alter.
Qed.

Lemma Call_opening st command :
  truthy_string command = true →
  (∀ c w, wsConnection st = Some c → sockets st !! c = Some w →
          readyState w ≠ OPEN) →
  wsConnection (step (Call command) st) = Some (length (sockets st)) ∧
  ∃ u, sockets (step (Call command) st)
       = sockets st ++ [{| url := u; readyState := CONNECTING; sent := [] |}].
Proof.
  intros Htruthy Hclosed. unfold step, exec. simpl.
  unfold bind, executeCommand. rewrite Htruthy. simpl.
  rewrite (getWebSocketConnection_opening st Hclosed). simpl. eauto.
Qed.

(** X6.  When two commands are called before any socket has opened, the
    open event of the first socket hands the first caller the second
    socket, the one stored last, which is still connecting. *)
Theorem first_open_hands_out_newest_socket st command1 command2 :
  truthy_string command1 = true →
  truthy_string command2 = true →
  (∀ c w, wsConnection st = Some c → sockets st !! c = Some w →
          readyState w ≠ OPEN) →
  let first := length (sockets st) in
  let st2 := run [Call command1; Call command2] st in
  let opened := exec (set_readyState first OPEN) st2 in
  (onopen opened).1 = Normal (Some (S first)) ∧
  (readyState <$> sockets (onopen opened).2 !! first) = Some OPEN ∧
  (readyState <$> sockets (onopen opened).2 !! S first) = Some CONNECTING.
Proof.
  intros H1 H2 Hclosed first st2 opened.
  destruct (Call_opening st command1 H1 Hclosed) as (Hc1 & u1 & Hs1).
  destruct (Call_opening (step (Call command1) st) command2 H2)
    as (Hc2 & u2 & Hs2).
  { intros c w. rewrite Hc1, Hs1. intros [= <-].
    rewrite lookup_app_r by done. rewrite Nat.sub_diag. simpl.
    by intros [= <-]. }
  rewrite Hs1 in Hc2, Hs2. rewrite length_app in Hc2. simpl in Hc2.
  subst opened st2. simpl.
  unfold onopen, exec, set_readyState, bind, logger_debug, modify, gets.
  simpl. rewrite Hc2, Hs2. fold first.
  split; [do 2 f_equal; lia|].
  rewrite <-app_assoc. simpl. split.
  - rewrite list_lookup_alter_eq.
    rewrite (list_lookup_middle _ _ _ first) by done. done.
  - rewrite list_lookup_alter_ne by lia.
    rewrite lookup_app_r by (unfold first; lia).
    replace (S first - length (sockets st)) with 1 by (unfold first; lia).
    done.
Qed.

End Sockets.

Section Reachable.
Context `{RT : Runtime}.

(** What is known of a stored callback, given the ids allocated so far. *)
Lemma effect_keeps_registered ids ev st st' :
  effect ev st st' →
  (∀ i cb, wsCallbacks st !! i = Some cb →
     i ∈ ids ∧ reject cb = resolve cb ∧ resolve cb < promises st) →
  ∀ i cb, wsCallbacks st' !! i = Some cb →
    i ∈ ids ++ issued [ev] ∧ reject cb = resolve cb ∧
    resolve cb < promises st'.
Proof.
  intros Heffect Hold.
  assert (∀ i cb, wsCallbacks st !! i = Some cb →
            i ∈ ids ++ issued [ev] ∧ reject cb = resolve cb ∧
            resolve cb < promises st) as Hold'.
  { intros i cb Hi. destruct (Hold i cb Hi) as (? & ? & ?).
    split; [|done]. apply elem_of_app. by left. }
  inversion Heffect as
    [? ? ? Ht Hs Hm Hn | ? ? ? j cb0 x Hcb Ht Hs Hm Hn
    | ? ? ? j cb0 Hcb Ht Hs Hm Hn | k t ? ? Hk Hm Hn Hcases
    | ws command now ? ? Ht Hn Hcases]; subst; intros i cb; rewrite ?Hn.
  - rewrite Ht. apply Hold'.
  - rewrite Ht. intros [[<- <-] | [_ Hi]]%lookup_insert_Some.
    + apply (Hold' j cb0 Hcb).
    + by apply Hold'.
  - rewrite Ht. intros [_ Hi]%lookup_delete_Some. by apply Hold'.
  - destruct Hcases as [(-> & _) | (cb0 & _ & _ & -> & _)].
    + apply Hold'.
    + intros [_ Hi]%lookup_delete_Some. by apply Hold'.
  - rewrite Ht. intros [[<- <-] | [_ Hi]]%lookup_insert_Some.
    + simpl. split; [|split; [done|lia]]. apply elem_of_app. right.
      by left.
    + destruct (Hold' i cb Hi) as (? & ? & ?). split; [done|].
      split; [done|lia].
Qed.

Lemma run_keeps_registered evs ids st :
  (∀ i cb, wsCallbacks st !! i = Some cb →
     i ∈ ids ∧ reject cb = resolve cb ∧ resolve cb < promises st) →
  ∀ i cb, wsCallbacks (run evs st) !! i = Some cb →
    i ∈ ids ++ issued evs ∧ reject cb = resolve cb ∧
    resolve cb < promises (run evs st).
Proof.
  revert ids st. induction evs as [|ev evs IH]; intros ids st Hst i cb Hi.
  { simpl in *. rewrite app_nil_r. by apply Hst. }
  rewrite issued_cons, app_assoc. simpl in Hi |- *.
  apply (IH (ids ++ issued [ev]) (step ev st)); [|done].
  apply (effect_keeps_registered ids ev st); [apply step_effect|done].
Qed.

Lemma issued_nonempty evs i : i ∈ issued evs → i ≠ "".
Proof.
  induction evs as [|ev evs IH]; [by intros ?%elem_of_nil|].
  rewrite issued_cons. intros [Hin | Hin]%elem_of_app; [|by apply IH].
  destruct ev; simpl in Hin; try by apply elem_of_nil in Hin.
  apply list_elem_of_singleton in Hin as ->.
  apply Number_toString_nonempty.
Qed.

(** X1.  Along a run in which the message ids allocated are pairwise
    distinct, no promise of [executeCommand] has its [resolve] handle
    called more than once, and a promise that has not been created yet has
    never been resolved. *)
Theorem no_promise_resolved_twice evs u token p :
  NoDup (issued evs) →
  resolutions p (run evs (constructed u token)) ≤ 1 ∧
  (promises (run evs (constructed u token)) ≤ p →
   resolutions p (run evs (constructed u token)) = 0).
Proof.
  intros Hnodup.
  destruct (run_history evs [] (constructed u token)) as (ids & Hhistory).
  - apply history_constructed.
  - done.
  - intros i _. apply not_elem_of_nil.
  - destruct Hhistory as (_ & _ & _ & Honce & Hfresh). split.
    + apply Honce.
    + apply Hfresh.
Qed.

(** X7.  In every state the tool can be in, a callback in the table is
    stored under a message id that [executeCommand] allocated, which is not
    empty; it is still marked incomplete; its two handles belong to one
    promise, and that promise has been created. *)
Theorem stored_callbacks_were_registered evs u token i cb :
  wsCallbacks (run evs (constructed u token)) !! i = Some cb →
  i ∈ issued evs ∧ i ≠ "" ∧ complete cb = false ∧
  reject cb = resolve cb ∧
  resolve cb < promises (run evs (constructed u token)).
Proof.
  intros Hi.
  destruct (run_keeps_registered evs [] (constructed u token)) with i cb
    as (Hin & Hsame & Hlt); [|done|].
  { intros j cb'. simpl. by rewrite lookup_empty. }
  simpl in Hin.
  destruct (run_steady evs _ (steady_constructed u token)) as [Hwaiting _].
  split; [done|]. split; [by eapply issued_nonempty|].
  split; [by eapply Hwaiting|]. done.
Qed.

(** X8.  A [system] or [error] frame for a waiting command whose content
    has no text (an object with an own [toString] property) removes the
    entry and calls no handle: the conversion throws after the removal,
    the handler logs it as a parsing error and returns.  The deadline of
    that id then finds nothing, so it settles nothing either. *)
Theorem unconvertible_content_drops_command data st now cb ty content :
  wsCallbacks st !! messageId now = Some cb →
  frame_field data "id" = Some (VString (messageId now)) →
  frame_field data "type" = Some (VString ty) →
  ty = "system" ∨ ty = "error" →
  frame_field data "content" = Some content →
  ToString Number_toString content = None →
  let st' := (onmessage data st).2 in
  (onmessage data st).1 = Normal tt ∧
  wsCallbacks st' = delete (messageId now) (wsCallbacks st) ∧
  settled st' = settled st ∧ timers st' = timers st ∧
  logged st'
  = logged st ++ [Debug "[AIConcert] WebSocket message received";
                  LogError "[AIConcert] WebSocket message parsing error:"] ∧
  ∀ t, timer_messageId t = messageId now →
       settled (timeout_callback t st').2 = settled st ∧
       wsCallbacks (timeout_callback t st').2 = wsCallbacks st'.
Proof.
  intros Hcb Hid Hty Hterminal Hcontent Hstubborn st'. subst st'.
  destruct (onmessage_pending _ _ _ _ _ Hcb Hid Hty) as (c & Hc & ->).
  rewrite Hcontent in Hc. injection Hc as <-.
  unfold dispatch. rewrite Hstubborn.
  assert (strict_eq_string (VString ty) "stdout"
          || strict_eq_string (VString ty) "stderr" = false) as ->.
  { by destruct Hterminal as [-> | ->]. }
  assert (strict_eq_string (VString ty) "system"
          || strict_eq_string (VString ty) "error" = true) as ->.
  { by destruct Hterminal as [-> | ->]. }
  assert (∀ st0 : AIConcert,
            wsCallbacks st0 = delete (messageId now) (wsCallbacks st) →
            settled st0 = settled st → timers st0 = timers st →
            ∀ t, timer_messageId t = messageId now →
              settled (timeout_callback t st0).2 = settled st ∧
              wsCallbacks (timeout_callback t st0).2 = wsCallbacks st0)
    as Hafter.
  { intros st0 Ht Hs Hm t Heq.
    destruct (timeout_callback_cases t st0)
      as (_ & _ & [(-> & -> & _) | (cb' & Hcb' & _)]); [done|].
    rewrite Ht, Heq, lookup_delete_eq in Hcb'. done. }
  destruct (Array_join Number_toString (output cb) LF) as [out|]; simpl;
    (split; [done|]; split; [done|]; split; [done|]; split; [done|];
     split; [by rewrite <-app_assoc|]; by apply Hafter).
Qed.

(** X9.  The deadline closure has no handler of its own: when a fragment
    of the waiting command has no text, the closure marks and removes the
    entry and then throws, and no handle has been called. *)
Theorem deadline_throws_on_unconvertible_fragment t st cb :
  wsCallbacks st !! timer_messageId t = Some cb →
  complete cb = false →
  Array_join Number_toString (output cb) LF = None →
  timeout_callback t st
  = (Throw TypeError,
     set_wsCallbacks (delete (timer_messageId t) (wsCallbacks st)) st).
Proof.
  intros Hcb Hwaiting Hjoin.
  unfold timeout_callback, bind, gets, modify, or_throw, ret, throw,
    call_resolve. simpl.
  rewrite Hcb, Hwaiting. simpl. rewrite Hjoin. simpl.
  by rewrite delete_alter_eq.
Qed.

End Reachable.

(** * Properties of the HTTP endpoints *)

Section Endpoints.
Context `{RT : Runtime}.
Context (apiUrl : string) (this : AIConcert)
        (served : Http.request → Http.answer) (engine_message : string).

Import Http.

Local Abbreviation handleFileOperation :=
  (Http.handleFileOperation apiUrl this served engine_message).
Local Abbreviation analyzeCode :=
  (Http.analyzeCode apiUrl this served engine_message).
Local Abbreviation runTest :=
  (Http.runTest apiUrl this served engine_message).
Local Abbreviation manageProject :=
  (Http.manageProject apiUrl this served engine_message).
Local Abbreviation _call := (Http._call apiUrl this served engine_message).
Local Abbreviation axios := (Http.axios served).

Ltac run_http :=
  unfold Http.rescue, Http.and_then, Http.or_raise, Http.pure, Http.raise,
    Http.log_error, Http.log_debug, Http.axios; simpl.

Lemma truthy_string_Some s : truthy_string (Some s) = true ↔ s ≠ "".
Proof. apply bool_decide_eq_true. Qed.

Lemma validOperations_cases op :
  op ∈ validOperations ↔
  op = "read" ∨ op = "write" ∨ op = "list" ∨ op = "delete".
Proof.
  unfold validOperations. rewrite !elem_of_cons, elem_of_nil. tauto.
Qed.

Local Abbreviation reports := (Http.reports engine_message).

Lemma rescue_reports (body : H string) label prefix w :
  ∃ text, (rescue body (reports label prefix) w).1 = Normal text ∧
          asked (rescue body (reports label prefix) w).2 = asked (body w).2.
Proof.
  unfold Http.reports. run_http. destruct (body w) as [[text|e] w']; simpl; eauto.
Qed.

Lemma axios_then_asked (q : request) (k : value number → H string) w :
  (∀ body w', asked (k body w').2 = asked w') →
  asked (and_then (axios q) k w).2 = asked w ++ [q].
Proof.
  intros Hk. run_http. destruct (served q) as [body|message]; simpl; [|done].
  by rewrite Hk.
Qed.

Lemma axios_then_rejected (q : request) (k : value number → H string)
    label prefix message w :
  served q = Rejected message →
  rescue (and_then (axios q) k) (reports label prefix) w
  = (Normal (prefix +:+ message),
     {| asked := asked w ++ [q]; noted := noted w ++ [LogError label] |}).
Proof. intros Hq. unfold Http.reports. run_http. by rewrite Hq. Qed.

Ltac split_cases :=
  repeat (match goal with
          | |- context [if ?b then _ else _] => destruct b
          | |- context [match ?o with Some _ => _ | None => _ end] =>
              destruct o
          end; simpl).

Lemma file_reply_asks_nothing op path body w :
  asked (file_reply op path body w).2 = asked w.
Proof. unfold file_reply. run_http. split_cases; done. Qed.

Lemma job_reply_asks_nothing failed started body w :
  asked (job_reply failed started body w).2 = asked w.
Proof. unfold job_reply. run_http. split_cases; done. Qed.

Lemma project_reply_asks_nothing op m body w :
  asked (project_reply op m body w).2 = asked w.
Proof.
  unfold project_reply. run_http. destruct body; simpl; try done.
  split_cases; done.
Qed.

(** [handleFileOperation] once the argument checks are passed. *)
Lemma handleFileOperation_checked op path content w :
  op ∈ validOperations →
  truthy_string path = true ∨ op = "list" →
  (op = "write" → truthy_string content = true) →
  handleFileOperation (Some op) path content w
  = rescue
      (and_then
         (axios {| method := POST;
                   url := apiUrl +:+ "/api/files/" +:+ op;
                   data := Some (if bool_decide (op = "write")
                                 then <["content" := argument content]>
                                        {["path" := argument path]}
                                 else {["path" := argument path]});
                   params := None;
                   headers := getAuthHeaders this |})
         (file_reply op path))
      (reports "[AIConcert] File operation error:"
               "Error with file operation: ") w.
Proof.
  intros Hvalid Hpath Hcontent.
  assert (truthy_string (Some op) = true) as Hop.
  { apply truthy_string_Some. intros ->.
    apply validOperations_cases in Hvalid.
    destruct Hvalid as [H | [H | [H | H]]]; discriminate H. }
  unfold Http.handleFileOperation. rewrite Hop. simpl.
  rewrite (bool_decide_eq_true_2 _ Hvalid). simpl.
  assert (negb (truthy_string path) && negb (bool_decide (op = "list"))
          = false) as ->.
  { destruct Hpath as [-> | ->]; [done|]. apply andb_false_r. }
  assert (bool_decide (op = "write") && negb (truthy_string content)
          = false) as ->.
  { destruct (decide (op = "write")) as [Hw|Hw].
    - rewrite (Hcontent Hw). apply andb_false_r.
    - by rewrite (bool_decide_eq_false_2 _ Hw). }
  assert (truthy_string content && bool_decide (op = "write")
          = bool_decide (op = "write")) as ->.
  { destruct (decide (op = "write")) as [Hw|Hw].
    - by rewrite (Hcontent Hw).
    - rewrite (bool_decide_eq_false_2 _ Hw). apply andb_false_r. }
  reflexivity.
Qed.

(** What a call comes to once the one request it makes is answered. *)
Lemma answered (q : request) (k : value number → H string) label prefix
    body w :
  served q = Response body →
  (∀ w', ∃ text, k body w' = (Normal text, w')) →
  rescue (and_then (axios q) k) (reports label prefix) w
  = ((k body {| asked := asked w ++ [q]; noted := noted w |}).1,
     {| asked := asked w ++ [q]; noted := noted w |}).
Proof.
  intros Hq Hk. unfold Http.reports. run_http. rewrite Hq.
  destruct (Hk {| asked := asked w ++ [q]; noted := noted w |})
    as [text ->]. done.
Qed.

Lemma handleFileOperation_rejected operation path content w :
  ¬ file_operation_accepted operation path content →
  ∃ message,
    handleFileOperation operation path content w
    = (Throw (Error message), w).
Proof.
  intros Hrejected. unfold Http.handleFileOperation.
  destruct (truthy_string operation) eqn:Hop; simpl; [|by eauto].
  destruct operation as [op|]; [|done]. simpl.
  destruct (negb (truthy_string path) && negb (bool_decide (op = "list")))
    eqn:Hpath; [by eauto|].
  destruct (bool_decide (op ∈ validOperations)) eqn:Hvalid; simpl;
    [|by eauto].
  destruct (bool_decide (op = "write") && negb (truthy_string content))
    eqn:Hcontent; [by eauto|].
  destruct Hrejected. exists op.
  apply bool_decide_eq_true in Hvalid.
  split; [done|]. split; [done|]. split.
  - apply andb_false_iff in Hpath as [Hp | Hl].
    + left. by apply negb_false_iff.
    + right. apply negb_false_iff in Hl. by apply bool_decide_eq_true in Hl.
  - intros ->. simpl in Hcontent. by apply negb_false_iff.
Qed.

(** X10.  [handleFileOperation] throws exactly when its arguments are not
    acceptable: the operation is one of [read], [write], [list] and
    [delete], a path is given unless the operation is [list], and a content
    is given when it is [write].  When it throws, nothing has been
    requested or logged; when the arguments are acceptable it returns a
    text whatever the server does. *)
Theorem file_operation_throws_iff_rejected operation path content w :
  (file_operation_accepted operation path content →
   ∃ text, (handleFileOperation operation path content w).1 = Normal text) ∧
  (¬ file_operation_accepted operation path content →
   ∃ message,
     handleFileOperation operation path content w
     = (Throw (Error message), w)).
Proof.
  split; [|apply handleFileOperation_rejected].
  intros (op & -> & Hvalid & Hpath & Hcontent).
  rewrite (handleFileOperation_checked op path content w Hvalid Hpath
             Hcontent).
  match goal with
  | |- ∃ _, (rescue ?body _ _).1 = _ =>
      destruct (rescue_reports body "[AIConcert] File operation error:"
                  "Error with file operation: " w) as (text & Htext & _)
  end.
  by exists text.
Qed.

(** X11.  With acceptable arguments [handleFileOperation] makes exactly one
    request: a POST to the files endpoint of the operation under the API
    URL, with the headers of [getAuthHeaders], no query and the path as
    body; the content is part of the body for [write] and for no other
    operation, even when one is given. *)
Theorem file_operation_request op path content w :
  op ∈ validOperations →
  truthy_string path = true ∨ op = "list" →
  (op = "write" → truthy_string content = true) →
  asked (handleFileOperation (Some op) path content w).2
  = asked w
    ++ [{| method := POST;
           url := apiUrl +:+ "/api/files/" +:+ op;
           data := Some (if bool_decide (op = "write")
                         then {["path" := argument path;
                                "content" := argument content]}
                         else {["path" := argument path]});
           params := None;
           headers := getAuthHeaders this |}].
Proof.
  intros Hvalid Hpath Hcontent.
  rewrite (handleFileOperation_checked op path content w Hvalid Hpath
             Hcontent).
  match goal with
  | |- asked (rescue ?body _ _).2 = _ =>
      destruct (rescue_reports body "[AIConcert] File operation error:"
                  "Error with file operation: " w) as (_ & _ & ->)
  end.
  rewrite axios_then_asked by apply file_reply_asks_nothing.
  by destruct (bool_decide (op = "write")).
Qed.

(** X12.  When axios rejects, [handleFileOperation] does not throw: it
    logs the error and returns the text made of the prefix of the endpoint
    and the message of the error. *)
Theorem file_operation_failure_is_text op path content message w :
  op ∈ validOperations →
  truthy_string path = true ∨ op = "list" →
  (op = "write" → truthy_string content = true) →
  (∀ q, url q = apiUrl +:+ "/api/files/" +:+ op →
        served q = Rejected message) →
  (handleFileOperation (Some op) path content w).1
  = Normal ("Error with file operation: " +:+ message) ∧
  noted (handleFileOperation (Some op) path content w).2
  = noted w ++ [LogError "[AIConcert] File operation error:"].
Proof.
  intros Hvalid Hpath Hcontent Hserved.
  rewrite (handleFileOperation_checked op path content w Hvalid Hpath
             Hcontent).
  rewrite (axios_then_rejected _ _ _ _ message); [done|].
  by apply Hserved.
Qed.

(** X13.  A [read] shows the content of the file between code fences when
    the server sends a non-empty string; an empty or missing content is not
    shown, the call then reports the operation as completed. *)
Theorem read_shows_content_unless_empty p content body w :
  p ≠ "" →
  (∀ q, url q = apiUrl +:+ "/api/files/read" → served q = Response body) →
  (∀ text, optional_Get body "content" = VString text → text ≠ "" →
     (handleFileOperation (Some "read") (Some p) content w).1
     = Normal ("File content for " +:+ p +:+ ":" +:+ LF +:+ LF +:+ "```"
               +:+ LF +:+ text +:+ LF +:+ "```")) ∧
  (optional_Get body "content" = VString "" ∨
   optional_Get body "content" = VUndefined →
     (handleFileOperation (Some "read") (Some p) content w).1
     = Normal "File operation 'read' completed successfully.").
Proof.
  intros Hp Hserved.
  assert (truthy_string (Some p) = true) as Hpath.
  { by apply truthy_string_Some. }
  rewrite (handleFileOperation_checked "read" (Some p) content w);
    [|apply validOperations_cases; by left|by left|done].
  unfold Http.reports. run_http. rewrite Hserved by done. simpl.
  unfold file_reply. run_http. split.
  - intros text -> Htext. simpl.
    by rewrite (bool_decide_eq_true_2 _ Htext).
  - by intros [-> | ->].
Qed.

Lemma file_line_entry entry :
  file_line (entry_value entry) = Some (listing_line entry).
Proof.
  destruct entry as [[name isDirectory] size].
  unfold file_line, entry_value, file_entry, listing_line, or_text. simpl.
  by destruct (Number_truthy size).
Qed.

Lemma file_lines_entries entries :
  Array_map file_line (entry_value <$> entries)
  = Some (listing_line <$> entries).
Proof.
  induction entries as [|entry entries IH]; [done|].
  rewrite !fmap_cons. simpl. by rewrite file_line_entry, IH.
Qed.

(** X14.  A [list] whose answer holds entries with a name, a directory
    flag and a size shows one line per entry in the order sent: the name,
    a slash after a directory, and the size in parentheses, or [N/A] for a
    size that counts as false, such as 0.  Without a path the heading names
    the current directory. *)
Theorem list_shows_one_line_per_entry path content body entries w :
  (∀ q, url q = apiUrl +:+ "/api/files/list" → served q = Response body) →
  optional_Get body "files" = VArray (entry_value <$> entries) →
  (handleFileOperation (Some "list") path content w).1
  = Normal ("Files in "
            +:+ (if truthy_string path then interpolate path
                 else "current directory")
            +:+ ":" +:+ LF +:+ LF
            +:+ String.concat LF (listing_line <$> entries)).
Proof.
  intros Hserved Hfiles.
  rewrite (handleFileOperation_checked "list" path content w);
    [|apply validOperations_cases; tauto|by right|done].
  unfold Http.reports. run_http. rewrite Hserved by done. simpl.
  unfold file_reply. run_http. rewrite Hfiles. simpl.
  by rewrite file_lines_entries.
Qed.

(** ** Projects *)

Lemma project_route_plain op m ps w :
  (op, m) ∈ [("create", POST); ("list", GET)] →
  project_route apiUrl op ps w = (Normal (m, apiUrl +:+ "/api/v2/projects"), w).
Proof.
  rewrite !elem_of_cons, elem_of_nil.
  by intros [[= -> ->] | [[= -> ->] | []]].
Qed.

Lemma project_route_with_id op m ps w :
  (op, m) ∈ [("update", PUT); ("delete", DELETE); ("get", GET)] →
  project_route apiUrl op ps w
  = if ToBoolean Number_truthy (parameter ps "id")
    then match ToString Number_toString (parameter ps "id") with
         | Some id =>
             (Normal (m, (apiUrl +:+ "/api/v2/projects") +:+ "/" +:+ id), w)
         | None => (Throw TypeError, w)
         end
    else (Throw (Error "Missing required parameter: id"), w).
Proof.
  rewrite !elem_of_cons, elem_of_nil.
  intros [[= -> ->] | [[= -> ->] | [[= -> ->] | []]]];
    unfold project_route; run_http;
    destruct (ToBoolean Number_truthy (parameter ps "id")); simpl; try done;
    by destruct (ToString Number_toString (parameter ps "id")).
Qed.



(** X16.  The request of [manageProject]: [create] posts to the projects
    endpoint, [update] puts, [delete] deletes and [get] gets at the
    endpoint followed by the id, [list] gets at the endpoint.  The
    parameters travel as the query of a GET and as the body of every other
    method, never as both. *)
Theorem project_request op m with_id ps id w :
  (op, m, with_id) ∈ [("create", POST, false); ("update", PUT, true);
                      ("delete", DELETE, true); ("get", GET, true);
                      ("list", GET, false)] →
  (with_id = true → parameter ps "id" = VString id ∧ id ≠ "") →
  asked (manageProject (Some op) ps w).2
  = asked w
    ++ [{| method := m;
           url := if with_id
                  then (apiUrl +:+ "/api/v2/projects") +:+ "/" +:+ id
                  else apiUrl +:+ "/api/v2/projects";
           data := if is_GET m then None else Some ps;
           params := if is_GET m then Some ps else None;
           headers := getAuthHeaders this |}].
Proof.
  intros Hroute Hid.
  assert (project_route apiUrl op ps w
          = (Normal (m, if with_id
                        then (apiUrl +:+ "/api/v2/projects") +:+ "/" +:+ id
                        else apiUrl +:+ "/api/v2/projects"), w) ∧
          op ≠ "") as [Hr Hop].
  { assert (∀ o m', (o, m') ∈ [("update", PUT); ("delete", DELETE);
                               ("get", GET)] →
              parameter ps "id" = VString id → id ≠ "" →
              project_route apiUrl o ps w
              = (Normal (m', (apiUrl +:+ "/api/v2/projects") +:+ "/" +:+ id),
                 w)) as Hwith.
    { intros o m' Hin Hps Hne.
      rewrite (project_route_with_id o m' ps w Hin), Hps. simpl.
      by rewrite (bool_decide_eq_true_2 _ Hne). }
    rewrite !elem_of_cons, elem_of_nil in Hroute.
    destruct Hroute as [H | [H | [H | [H | [H | []]]]]];
      injection H as -> -> ->; (split; [|done]).
    - apply project_route_plain. rewrite !elem_of_cons. by eauto.
    - destruct (Hid eq_refl). apply Hwith; [|done..].
      rewrite !elem_of_cons. by eauto.
    - destruct (Hid eq_refl). apply Hwith; [|done..].
      rewrite !elem_of_cons. by eauto.
    - destruct (Hid eq_refl). apply Hwith; [|done..].
      rewrite !elem_of_cons. by eauto.
    - apply project_route_plain. rewrite !elem_of_cons. by eauto. }
  unfold Http.manageProject.
  rewrite (proj2 (truthy_string_Some op) Hop). simpl.
  match goal with
  | |- asked (rescue ?body _ _).2 = _ =>
      destruct (rescue_reports body "[AIConcert] Project operation error:"
                  "Error with project operation: " w) as (_ & _ & ->)
  end.
  unfold Http.and_then at 1. rewrite Hr.
  rewrite axios_then_asked by apply project_reply_asks_nothing. done.
Qed.

(** ** Analysis and tests *)

(** X17.  [analyzeCode] posts the parameters with the path added to them;
    a parameter that is itself called [path] takes the place of the path
    argument in the body, while the other parameters pass unchanged.
    Without a path it throws and asks nothing. *)
Theorem analysis_request p ps w :
  p ≠ "" →
  analyzeCode None ps w = (Throw (Error "Missing required field: path"), w) ∧
  ∃ body,
    asked (analyzeCode (Some p) ps w).2
    = asked w ++ [{| method := POST;
                     url := apiUrl +:+ "/api/analysis/start";
                     data := Some body; params := None;
                     headers := getAuthHeaders this |}] ∧
    body !! "path" = Some (default (VString p) (ps !! "path")) ∧
    ∀ key, key ≠ "path" → body !! key = ps !! key.
Proof.
  intros Hp. split; [done|]. exists (with_path p ps).
  split; [|split].
  - unfold Http.analyzeCode.
    rewrite (proj2 (truthy_string_Some p) Hp). simpl.
    match goal with
    | |- asked (rescue ?body _ _).2 = _ =>
        destruct (rescue_reports body "[AIConcert] Analysis error:"
                    "Error analyzing code: " w) as (_ & _ & ->)
    end.
    rewrite axios_then_asked by apply job_reply_asks_nothing. done.
  - unfold with_path. rewrite lookup_union.
    rewrite lookup_singleton_eq. by destruct (ps !! "path").
  - intros key Hkey. unfold with_path. rewrite lookup_union.
    rewrite lookup_singleton_ne by done. by destruct (ps !! key).
Qed.

(** X18.  The reply of [analyzeCode]: a job id that is a non-empty string
    is quoted in the text, together with the path argument; an answer
    without a job id, or with an empty one, gives the text of the failed
    start and throws nothing. *)
Theorem analysis_reply_needs_job_id p ps body w :
  p ≠ "" →
  (∀ q, url q = apiUrl +:+ "/api/analysis/start" →
        served q = Response body) →
  (∀ job, optional_Get body "job_id" = VString job → job ≠ "" →
     (analyzeCode (Some p) ps w).1
     = Normal ("Analysis started for " +:+ p +:+ ". Job ID: " +:+ job
               +:+ LF +:+ LF +:+ "The analysis"
               +:+ status_hint "analyze" job)) ∧
  (optional_Get body "job_id" = VUndefined ∨
   optional_Get body "job_id" = VString "" →
     (analyzeCode (Some p) ps w).1
     = Normal "Failed to start analysis. Invalid response from server.").
Proof.
  intros Hp Hserved. unfold Http.analyzeCode.
  rewrite (proj2 (truthy_string_Some p) Hp). simpl.
  unfold Http.reports. run_http. rewrite Hserved by done. simpl.
  unfold job_reply. run_http. split.
  - intros job -> Hjob. simpl. by rewrite (bool_decide_eq_true_2 _ Hjob).
  - by intros [-> | ->].
Qed.

(** X19.  [runTest] needs a repository URL or a code path among its
    parameters: with neither it throws and asks nothing.  With a
    repository URL it posts the parameters to the repository endpoint,
    whether or not a code path is given as well; with a code path alone it
    posts them to the local endpoint. *)
Theorem test_endpoint ps w :
  let repo := ToBoolean Number_truthy (parameter ps "repo_url") in
  let code := ToBoolean Number_truthy (parameter ps "code_path") in
  (repo = false → code = false →
   runTest ps w
   = (Throw (Error "Missing required parameters. Either repo_url or code_path must be provided."),
      w)) ∧
  (repo = true →
   asked (runTest ps w).2
   = asked w ++ [{| method := POST;
                    url := apiUrl +:+ "/api/testing/repository";
                    data := Some ps; params := None;
                    headers := getAuthHeaders this |}]) ∧
  (repo = false → code = true →
   asked (runTest ps w).2
   = asked w ++ [{| method := POST;
                    url := apiUrl +:+ "/api/testing/local";
                    data := Some ps; params := None;
                    headers := getAuthHeaders this |}]).
Proof.
  intros repo code. subst repo code. unfold Http.runTest.
  split; [|split].
  - by intros -> ->.
  - intros ->. simpl.
    match goal with
    | |- asked (rescue ?body _ _).2 = _ =>
        destruct (rescue_reports body "[AIConcert] Test execution error:"
                    "Error running test: " w) as (_ & _ & ->)
    end.
    by rewrite axios_then_asked by apply job_reply_asks_nothing.
  - intros -> ->. simpl.
    match goal with
    | |- asked (rescue ?body _ _).2 = _ =>
        destruct (rescue_reports body "[AIConcert] Test execution error:"
                    "Error running test: " w) as (_ & _ & ->)
    end.
    by rewrite axios_then_asked by apply job_reply_asks_nothing.
Qed.

(** ** Dispatch *)

Lemma rescued_request (body : H string) label prefix w :
  one_request_at_most apiUrl this w (body w).2 →
  one_request_at_most apiUrl this w (rescue body (reports label prefix) w).2.
Proof.
  intros Hone. unfold one_request_at_most.
  destruct (rescue_reports body label prefix w) as (_ & _ & ->). done.
Qed.

Lemma asked_one (q : request) (k : value number → H string) w :
  (∀ body w', asked (k body w').2 = asked w') →
  headers q = getAuthHeaders this →
  (∃ rest, url q = apiUrl +:+ rest) →
  one_request_at_most apiUrl this w (and_then (axios q) k w).2.
Proof.
  intros Hk Hheaders Hurl. right. exists q.
  by rewrite axios_then_asked.
Qed.

Lemma handleFileOperation_one_request operation path content w :
  one_request_at_most apiUrl this w
    (handleFileOperation operation path content w).2.
Proof.
  unfold Http.handleFileOperation.
  destruct (negb (truthy_string operation)); [by left|].
  destruct (negb (truthy_string path)
            && negb (bool_decide (default "" operation = "list")));
    [by left|].
  destruct (negb (bool_decide (default "" operation ∈ validOperations)));
    [by left|].
  destruct (bool_decide (default "" operation = "write")
            && negb (truthy_string content)); [by left|].
  apply rescued_request, asked_one; [apply file_reply_asks_nothing|done|].
  simpl. eauto.
Qed.

Lemma analyzeCode_one_request path ps w :
  one_request_at_most apiUrl this w (analyzeCode path ps w).2.
Proof.
  unfold Http.analyzeCode.
  destruct (negb (truthy_string path)); [by left|].
  apply rescued_request, asked_one; [apply job_reply_asks_nothing|done|].
  simpl. eauto.
Qed.

Lemma runTest_one_request ps w :
  one_request_at_most apiUrl this w (runTest ps w).2.
Proof.
  unfold Http.runTest.
  destruct (negb (ToBoolean Number_truthy (parameter ps "repo_url"))
            && negb (ToBoolean Number_truthy (parameter ps "code_path")));
    [by left|].
  apply rescued_request, asked_one; [apply job_reply_asks_nothing|done|].
  simpl. destruct (ToBoolean Number_truthy (parameter ps "repo_url")); eauto.
Qed.

Lemma project_route_cases op ps w :
  (∃ e, project_route apiUrl op ps w = (Throw e, w)) ∨
  (∃ m rest, project_route apiUrl op ps w = (Normal (m, apiUrl +:+ rest), w)).
Proof.
  unfold project_route. run_http.
  repeat (destruct (bool_decide (op = _)));
    try (by right; eexists _, _; reflexivity);
    try (by left; eauto);
    (destruct (ToBoolean Number_truthy (parameter ps "id")); simpl;
       [|by left; eauto]);
    (destruct (ToString Number_toString (parameter ps "id")) as [id|]; simpl;
       [|by left; eauto]);
    right; eexists _, ("/api/v2/projects" +:+ "/" +:+ id);
    by rewrite append_assoc.
Qed.

Lemma manageProject_one_request operation ps w :
  one_request_at_most apiUrl this w (manageProject operation ps w).2.
Proof.
  unfold Http.manageProject.
  destruct (negb (truthy_string operation)); [by left|].
  apply rescued_request. unfold Http.and_then at 1.
  destruct (project_route_cases (default "" operation) ps w)
    as [[e ->] | (m & rest & ->)]; [by left|].
  apply asked_one; [apply project_reply_asks_nothing|done|].
  simpl. eauto.
Qed.

(** X20.  [_call] never throws: whatever the action, the arguments and the
    answer of the server, it comes to a text, or to the promise of
    [executeCommand] for the action [terminal].  On the way it makes at
    most one request, to a URL under the API URL and with the headers of
    [getAuthHeaders]. *)
Theorem call_never_throws input w :
  (∃ result, (_call input w).1 = Normal result) ∧
  one_request_at_most apiUrl this w (_call input w).2.
Proof.
  unfold Http._call.
  assert (∀ (h : H string) w0,
            one_request_at_most apiUrl this w (h w0).2 →
            (∃ result,
               (rescue (and_then h (λ text, pure (Returned text)))
                  (λ error,
                     and_then (log_error "[AIConcert] Error during execution:")
                       (λ _, pure (Returned (caught engine_message error))))
                  w0).1 = Normal result) ∧
            one_request_at_most apiUrl this w
              (rescue (and_then h (λ text, pure (Returned text)))
                 (λ error,
                    and_then (log_error "[AIConcert] Error during execution:")
                      (λ _, pure (Returned (caught engine_message error))))
                 w0).2) as Hhandler.
  { intros h w0 Hone. run_http.
    destruct (h w0) as [[text|e] w']; simpl in *; by eauto. }
  unfold Http.and_then at 1. unfold Http.log_debug.
  set (w0 := {| asked := asked w;
                noted := noted w ++ [Debug "[AIConcert] Call with data:"] |}).
  assert (∀ w', one_request_at_most apiUrl this w0 w' →
                one_request_at_most apiUrl this w w') as Hfrom.
  { done. }
  destruct (bool_decide (action input = "terminal")).
  { run_http. split; [by eauto|by left]. }
  destruct (bool_decide (action input = "file")).
  { apply Hhandler, Hfrom, handleFileOperation_one_request. }
  destruct (bool_decide (action input = "analyze")).
  { apply Hhandler, Hfrom, analyzeCode_one_request. }
  destruct (bool_decide (action input = "test")).
  { apply Hhandler, Hfrom, runTest_one_request. }
  destruct (bool_decide (action input = "project")).
  { apply Hhandler, Hfrom, manageProject_one_request. }
  run_http. split; [by eauto|by left].
Qed.

(** X21.  An argument that fails the checks of [handleFileOperation] comes
    back from [_call] as the text of the dispatcher, and nothing is
    requested; a failure of the request keeps the text of the endpoint. *)
Theorem call_reports_file_errors input w :
  action input = "file" →
  (¬ file_operation_accepted (operation input) (path input)
       (content input) →
   ∃ message,
     (_call input w).1
     = Normal (Returned ("Error executing AIConcert action: " +:+ message)) ∧
     asked (_call input w).2 = asked w) ∧
  (∀ message,
     file_operation_accepted (operation input) (path input)
       (content input) →
     (∀ q, served q = Rejected message) →
     (_call input w).1
     = Normal (Returned ("Error with file operation: " +:+ message))).
Proof.
  intros Haction.
  set (w0 := {| asked := asked w;
                noted := noted w ++ [Debug "[AIConcert] Call with data:"] |}).
  assert (_call input w
          = rescue
              (and_then
                 (handleFileOperation (operation input) (path input)
                    (content input))
                 (λ text, pure (Returned text)))
              (λ error,
                 and_then (log_error "[AIConcert] Error during execution:")
                   (λ _, pure (Returned (caught engine_message error))))
              w0) as ->.
  { unfold Http._call. rewrite Haction. done. }
  split.
  - intros Hrejected.
    destruct (handleFileOperation_rejected (operation input) (path input)
                (content input) w0 Hrejected) as [message Hthrow].
    exists message. run_http. by rewrite Hthrow.
  - intros message (op & Hop & Hvalid & Hpath & Hcontent) Hserved.
    rewrite Hop. run_http.
    rewrite (handleFileOperation_checked op (path input) (content input) w0
               Hvalid Hpath Hcontent).
    by rewrite (axios_then_rejected _ _ _ _ message).
Qed.

(** X22.  An empty or missing command given to [_call] ends as a text:
    [_call] awaits [executeCommand], which throws before it touches the
    connection, and the rejection is turned into the text of the
    dispatcher. *)
Theorem empty_command_comes_back_as_text input w st :
  action input = "terminal" →
  truthy_string (command input) = false →
  (_call input w).1 = Normal (Awaits_executeCommand (command input)) ∧
  ∃ error,
    executeCommand (command input) st = (Throw error, st) ∧
    ∀ w', (_call_settled engine_message (Throw error) w').1
          = Normal "Error executing AIConcert action: Missing required field: command".
Proof.
  intros Haction Hcommand. split.
  - unfold Http._call. rewrite Haction. done.
  - exists (Error "Missing required field: command"). split; [|done].
    unfold executeCommand. by rewrite Hcommand.
Qed.

End Endpoints.

(** * The token and the constructor *)

Section Configuration.
Context `{RT : Runtime}.

(** X23.  The token goes out on both channels under the same condition.
    A token that is a non-empty string is sent as the bearer credential of
    every HTTP request and as the [token] query of the socket URL; without
    a token, or with an empty one, the header is absent and the socket URL
    is the configured one.  The content type is always announced. *)
Theorem token_travels_iff_nonempty st :
  (∀ c w, wsConnection st = Some c → sockets st !! c = Some w →
          readyState w ≠ OPEN) →
  let opened :=
    url <$> sockets (getWebSocketConnection st).2 !! length (sockets st) in
  Http.getAuthHeaders st !! "Content-Type" = Some "application/json" ∧
  (∀ t, authToken st = Some t → t ≠ "" →
     Http.getAuthHeaders st !! "Authorization" = Some ("Bearer " +:+ t) ∧
     opened = Some (wsUrl st +:+ "?token=" +:+ t)) ∧
  (authToken st = None ∨ authToken st = Some "" →
     Http.getAuthHeaders st !! "Authorization" = None ∧
     opened = Some (wsUrl st)).
Proof.
  intros Hclosed opened. subst opened.
  rewrite (getWebSocketConnection_opening st Hclosed). simpl.
  rewrite lookup_app_r by done. rewrite Nat.sub_diag. simpl.
  unfold Http.getAuthHeaders. split; [|split].
  - by destruct (truthy_string (authToken st)).
  - intros t -> Ht. simpl. by rewrite (bool_decide_eq_true_2 _ Ht).
  - by intros [-> | ->].
Qed.

Lemma url_choice field name env :
  let choice := if truthy_string field then Normal (default "" field)
                else Http.getUrl name env in
  (∀ s, configured field (env !! name) s → choice = Normal s) ∧
  ((∀ s, ¬ configured field (env !! name) s) →
   choice = Throw (Error ("Missing " +:+ name +:+ " environment variable."))).
Proof.
  intros choice. subst choice. unfold configured, Http.getUrl, Http.or_else.
  split.
  - intros s [Hs [-> | [-> ->]]]; simpl;
      repeat (rewrite (bool_decide_eq_true_2 _ Hs); simpl); done.
  - intros Hnone. destruct (truthy_string field) eqn:Hfield.
    + destruct field as [s|]; [|done]. destruct (Hnone s).
      split; [by apply bool_decide_eq_true in Hfield|by left].
    + destruct (env !! name) as [s|] eqn:Hvar; simpl; [|done].
      destruct (decide (s = "")) as [->|Hs]; [done|].
      destruct (Hnone s). split; [done|]. by right.
Qed.

(** X24.  The constructor takes each URL from its field when that is a
    non-empty string and from the environment otherwise, and starts with no
    connection and no waiting command; the token comes from the fields
    only.  When no API URL can be found it throws the error that names the
    API URL, whatever the socket URL; when only the socket URL is missing
    it throws the error that names the socket URL. *)
Theorem construction_takes_fields_before_environment f env :
  let api := configured (Http.AICONCERT_API_URL f)
               (env !! "AICONCERT_API_URL") in
  let ws := configured (Http.AICONCERT_WS_URL f)
              (env !! "AICONCERT_WS_URL") in
  (∀ a s, api a → ws s →
     Http.new_AIConcert f env
     = Normal (a, {| wsUrl := s;
                     authToken := Http.AICONCERT_AUTH_TOKEN f;
                     wsConnection := None; wsCallbacks := ∅;
                     sockets := []; promises := 0; settled := [];
                     timers := []; logged := [] |})) ∧
  ((∀ a, ¬ api a) →
   Http.new_AIConcert f env
   = Throw (Error "Missing AICONCERT_API_URL environment variable.")) ∧
  (∀ a, api a → (∀ s, ¬ ws s) →
   Http.new_AIConcert f env
   = Throw (Error "Missing AICONCERT_WS_URL environment variable.")).
Proof.
  intros api ws. subst api ws. unfold Http.new_AIConcert.
  destruct (url_choice (Http.AICONCERT_API_URL f) "AICONCERT_API_URL" env)
    as [Hapi Hno_api].
  destruct (url_choice (Http.AICONCERT_WS_URL f) "AICONCERT_WS_URL" env)
    as [Hws Hno_ws].
  simpl in *. split; [|split].
  - intros a s Ha Hs. by rewrite (Hapi a Ha), (Hws s Hs).
  - intros Hnone. by rewrite (Hno_api Hnone).
  - intros a Ha Hnone. by rewrite (Hapi a Ha), (Hno_ws Hnone).
Qed.

End Configuration.

(** * The further properties on sessions *)

Section MoreSessions.
#[local] Existing Instance Sample.runtime.
Import Sample.

Lemma no_promise_resolved_twice_witness :
  resolutions 0 (run (session ++ [Message system_frame; Deadline 0]) fresh)
  ≤ 1.
Proof.
  apply (no_promise_resolved_twice
           (session ++ [Message system_frame; Deadline 0])
           "ws://localhost:8080/ws" (Some "test_auth_token") 0).
  vm_compute. apply NoDup_singleton.
Defined.

Lemma events_touch_only_their_entry_witness :
  wsCallbacks (step (Message late_frame) listing) !! id0
  = wsCallbacks listing !! id0.
Proof.
  apply events_touch_only_their_entry. simpl.
  intros Hid. vm_compute in Hid. discriminate Hid.
Defined.

Lemma fragments_kept_in_arrival_order_witness :
  ∃ cb, wsCallbacks (run [Message stdout_frame;
                          Message (stringify (frame id0 "stderr" "warning"))]
                       listing) !! id0 = Some cb ∧
        output cb = [VString "total 0"; VString "total 0"; VString "warning"].
Proof.
  destruct (fragments_kept_in_arrival_order (RT := runtime) tick listing
              listing_callback
              ["total 0"]
              [(stdout_frame, "total 0");
               (stringify (frame id0 "stderr" "warning"), "warning")])
    as (cb & Hcb & Hout & _).
  - reflexivity.
  - reflexivity.
  - repeat constructor; vm_compute; reflexivity.
  - exists cb. split; [exact Hcb|exact Hout].
Defined.

Lemma registration_and_send_witness :
  settled (executeCommand_resume (Some 0) "ls -la" tick
             (step (Call (Some "ls -la")) fresh)).2
  = [Reject 0 (Error "WebSocket is not open: readyState 0 (CONNECTING)")] ∧
  timers (executeCommand_resume (Some 0) "ls -la" tick
            (step (Call (Some "ls -la")) fresh)).2 = [] ∧
  timers (executeCommand_resume (Some 0) "ls -la" tick connected).2
  = [listing_timer].
Proof.
  destruct (registration_and_send (step (Call (Some "ls -la")) fresh) 0
              {| url := "ws://localhost:8080/ws?token=test_auth_token";
                 readyState := CONNECTING; sent := [] |} "ls -la" tick)
    as (_ & _ & Hfails & _); [reflexivity|].
  destruct (Hfails _ eq_refl) as (Hs & Ht & _).
  destruct (registration_and_send connected 0
              {| url := "ws://localhost:8080/ws?token=test_auth_token";
                 readyState := OPEN; sent := [] |} "ls -la" tick)
    as (_ & _ & _ & Hsends); [reflexivity|].
  destruct (Hsends eq_refl) as (_ & Ht' & _).
  split; [exact Hs|]. split; [exact Ht|exact Ht'].
Defined.

Lemma first_open_hands_out_newest_socket_witness :
  (onopen (exec (set_readyState 0 OPEN)
             (run [Call (Some "ls -la"); Call (Some "pwd")] fresh))).1
  = Normal (Some 1).
Proof.
  destruct (first_open_hands_out_newest_socket fresh (Some "ls -la")
              (Some "pwd")) as (Hopen & _).
  - reflexivity.
  - reflexivity.
  - intros c w Hc. vm_compute in Hc. discriminate Hc.
  - exact Hopen.
Defined.

Lemma stored_callbacks_were_registered_witness :
  id0 ∈ issued session ∧ complete listing_callback = false.
Proof.
  destruct (stored_callbacks_were_registered session
              "ws://localhost:8080/ws" (Some "test_auth_token") id0
              listing_callback) as (Hin & _ & Hwaiting & _).
  - reflexivity.
  - split; [exact Hin|exact Hwaiting].
Defined.

End MoreSessions.

Section HostileSessions.
#[local] Existing Instance Hostile.runtime.
Import Hostile.

Lemma unconvertible_content_drops_command_witness :
  settled (onmessage "bad" waiting).2 = [] ∧
  wsCallbacks (onmessage "bad" waiting).2 !! Sample.id0 = None.
Proof.
  destruct (unconvertible_content_drops_command "bad" waiting Sample.tick
              {| output := []; complete := false; resolve := 0;
                 reject := 0 |} "system" stubborn)
    as (_ & Ht & Hs & _).
  - reflexivity.
  - reflexivity.
  - reflexivity.
  - left. reflexivity.
  - reflexivity.
  - reflexivity.
  - split; [exact Hs|]. rewrite Ht. apply lookup_delete_eq.
Defined.

Lemma deadline_throws_on_unconvertible_fragment_witness :
  (timeout_callback {| timer_messageId := Sample.id0; timer_resolve := 0 |}
     (step (Message "worse") waiting)).1 = Throw TypeError.
Proof.
  rewrite (deadline_throws_on_unconvertible_fragment (RT := runtime) _ _
             (@Build_callback runtime [stubborn] false 0 0)).
  - reflexivity.
  - reflexivity.
  - reflexivity.
  - reflexivity.
Defined.

End HostileSessions.

Section EndpointSessions.
#[local] Existing Instance Sample.runtime.
Import Http Served.

Lemma served_read q :
  url q = apiUrl +:+ "/api/files/read" →
  served q = Response (VObject [("content", VString "File content here")]).
Proof. intros Hq. unfold served. rewrite Hq. reflexivity. Qed.

Lemma served_list q :
  url q = apiUrl +:+ "/api/files/list" → served q = Response notes.
Proof. intros Hq. unfold served. rewrite Hq. reflexivity. Qed.

Lemma served_delete q :
  url q = apiUrl +:+ "/api/files/delete" →
  served q = Rejected "Request failed with status code 500".
Proof. intros Hq. unfold served. rewrite Hq. reflexivity. Qed.

Lemma served_analysis q :
  url q = apiUrl +:+ "/api/analysis/start" →
  served q = Response (VObject [("job_id", VString "test-job-id")]).
Proof. intros Hq. unfold served. rewrite Hq. reflexivity. Qed.

Lemma file_operation_throws_iff_rejected_witness :
  (∃ text,
     (handleFileOperation apiUrl Sample.connected served engine_message
        (Some "list") None None nothing_yet).1 = Normal text) ∧
  ∃ message,
    handleFileOperation apiUrl Sample.connected served engine_message
      (Some "copy") (Some "/tmp") None nothing_yet
    = (Throw (Error message), nothing_yet).
Proof.
  split.
  - apply (proj1 (file_operation_throws_iff_rejected apiUrl Sample.connected
                    served engine_message (Some "list") None None
                    nothing_yet)).
    exists "list". split; [reflexivity|]. split.
    + apply list_elem_of_In. simpl. tauto.
    + split; [by right|]. intros H. discriminate H.
  - apply (proj2 (file_operation_throws_iff_rejected apiUrl Sample.connected
                    served engine_message (Some "copy") (Some "/tmp") None
                    nothing_yet)).
    intros (op & [= <-] & Hvalid & _).
    apply list_elem_of_In in Hvalid. simpl in Hvalid.
    destruct Hvalid as [H | [H | [H | [H | []]]]]; discriminate H.
Defined.

Lemma file_operation_request_witness :
  asked (handleFileOperation apiUrl Sample.connected served engine_message
           (Some "read") (Some "/path/to/file.txt") (Some "ignored")
           nothing_yet).2
  = [{| method := POST; url := "http://localhost:8080/api/files/read";
        data := Some {["path" := VString "/path/to/file.txt"]};
        params := None;
        headers := {["Content-Type" := "application/json";
                     "Authorization" := "Bearer test_auth_token"]} |}].
Proof.
  rewrite (file_operation_request apiUrl Sample.connected served
             engine_message "read" (Some "/path/to/file.txt")
             (Some "ignored") nothing_yet).
  - reflexivity.
  - apply list_elem_of_In. simpl. tauto.
  - left. reflexivity.
  - intros H. discriminate H.
Defined.

Lemma file_operation_failure_is_text_witness :
  (handleFileOperation apiUrl Sample.connected served engine_message
     (Some "delete") (Some "/tmp/x") None nothing_yet).1
  = Normal "Error with file operation: Request failed with status code 500".
Proof.
  destruct (file_operation_failure_is_text apiUrl Sample.connected served
              engine_message "delete" (Some "/tmp/x") None
              "Request failed with status code 500" nothing_yet)
    as [Htext _].
  - apply list_elem_of_In. simpl. tauto.
  - left. reflexivity.
  - intros H. discriminate H.
  - apply served_delete.
  - exact Htext.
Defined.

Lemma read_shows_content_unless_empty_witness :
  (handleFileOperation apiUrl Sample.connected served engine_message
     (Some "read") (Some "/path/to/file.txt") None nothing_yet).1
  = Normal ("File content for /path/to/file.txt:" +:+ LF +:+ LF +:+ "```"
            +:+ LF +:+ "File content here" +:+ LF +:+ "```").
Proof.
  destruct (read_shows_content_unless_empty apiUrl Sample.connected served
              engine_message "/path/to/file.txt" None
              (VObject [("content", VString "File content here")])
              nothing_yet) as [Hshown _].
  - discriminate.
  - apply served_read.
  - apply (Hshown "File content here"); [reflexivity|discriminate].
Defined.

Lemma list_shows_one_line_per_entry_witness :
  (handleFileOperation apiUrl Sample.connected served engine_message
     (Some "list") None None nothing_yet).1
  = Normal ("Files in current directory:" +:+ LF +:+ LF
            +:+ "src/ (4096)" +:+ LF +:+ "empty.txt (N/A)" +:+ LF
            +:+ "notes.md (120)").
Proof.
  rewrite (list_shows_one_line_per_entry apiUrl Sample.connected served
             engine_message None None notes
             [("src", true, 4096%Z); ("empty.txt", false, 0%Z);
              ("notes.md", false, 120%Z)] nothing_yet).
  - vm_compute. reflexivity.
  - apply served_list.
  - reflexivity.
Defined.


Lemma project_request_witness :
  asked (manageProject apiUrl Sample.connected served engine_message
           (Some "update") renaming nothing_yet).2
  = [{| method := PUT; url := "http://localhost:8080/api/v2/projects/42";
        data := Some renaming; params := None;
        headers := getAuthHeaders Sample.connected |}].
Proof.
  rewrite (project_request apiUrl Sample.connected served engine_message
             "update" PUT true renaming "42" nothing_yet).
  - reflexivity.
  - apply list_elem_of_In. simpl. tauto.
  - intros _. split; [reflexivity|discriminate].
Defined.

Lemma analysis_request_witness :
  ∃ body,
    (data <$> asked (analyzeCode apiUrl Sample.connected served
                      engine_message (Some "/path/to/project") redirected
                      nothing_yet).2) = [Some body] ∧
    body !! "path" = Some (VString "/elsewhere") ∧
    body !! "depth" = Some (VNumber 2%Z).
Proof.
  destruct (analysis_request apiUrl Sample.connected served engine_message
              "/path/to/project" redirected nothing_yet)
    as (_ & body & Hasked & Hpath & Hrest); [discriminate|].
  exists body. split; [by rewrite Hasked|]. split.
  - rewrite Hpath. reflexivity.
  - rewrite Hrest; [reflexivity|discriminate].
Defined.

Lemma analysis_reply_needs_job_id_witness :
  (analyzeCode apiUrl Sample.connected served engine_message
     (Some "/path/to/project") ∅ nothing_yet).1
  = Normal ("Analysis started for /path/to/project. Job ID: test-job-id"
            +:+ LF +:+ LF +:+ "The analysis"
            +:+ status_hint "analyze" "test-job-id").
Proof.
  destruct (analysis_reply_needs_job_id apiUrl Sample.connected served
              engine_message "/path/to/project" ∅
              (VObject [("job_id", VString "test-job-id")]) nothing_yet)
    as [Hstarted _].
  - discriminate.
  - apply served_analysis.
  - rewrite (Hstarted "test-job-id"); [reflexivity|reflexivity|discriminate].
Defined.

Lemma test_endpoint_witness :
  (url <$> asked (runTest apiUrl Sample.connected served engine_message
                    {["repo_url" := VString "https://github.com/repo";
                      "code_path" := VString "/src"]} nothing_yet).2)
  = ["http://localhost:8080/api/testing/repository"] ∧
  runTest apiUrl Sample.connected served engine_message ∅ nothing_yet
  = (Throw (Error "Missing required parameters. Either repo_url or code_path must be provided."),
     nothing_yet).
Proof.
  destruct (test_endpoint apiUrl Sample.connected served engine_message
              {["repo_url" := VString "https://github.com/repo";
                "code_path" := VString "/src"]} nothing_yet)
    as (_ & Hrepo & _).
  destruct (test_endpoint apiUrl Sample.connected served engine_message ∅
              nothing_yet) as (Hnone & _).
  split.
  - rewrite Hrepo; reflexivity.
  - apply Hnone; reflexivity.
Defined.

Lemma call_reports_file_errors_witness :
  (_call apiUrl Sample.connected down engine_message delete_call
     nothing_yet).1
  = Normal (Returned "Error with file operation: Network Error") ∧
  ∃ message,
    (_call apiUrl Sample.connected down engine_message pathless_read
       nothing_yet).1
    = Normal (Returned ("Error executing AIConcert action: " +:+ message)).
Proof.
  split.
  - apply (proj2 (call_reports_file_errors apiUrl Sample.connected down
                    engine_message delete_call nothing_yet eq_refl)
             "Network Error").
    + exists "delete". split; [reflexivity|]. split.
      * apply list_elem_of_In. simpl. tauto.
      * split; [by left|]. intros H. discriminate H.
    + intros q. reflexivity.
  - destruct (proj1 (call_reports_file_errors apiUrl Sample.connected down
                       engine_message pathless_read nothing_yet eq_refl))
      as (message & Htext & _).
    + intros (op & [= <-] & _ & [Hpath | Hlist] & _); discriminate.
    + exists message. exact Htext.
Defined.

Lemma empty_command_comes_back_as_text_witness :
  executeCommand (Some "") Sample.connected
  = (Throw (Error "Missing required field: command"), Sample.connected) ∧
  (_call_settled engine_message
     (Throw (Error "Missing required field: command")) nothing_yet).1
  = Normal "Error executing AIConcert action: Missing required field: command".
Proof.
  destruct (empty_command_comes_back_as_text apiUrl Sample.connected served
              engine_message blank_command nothing_yet Sample.connected
              eq_refl eq_refl)
    as (_ & error & Hthrown & Htext).
  simpl in Hthrown. injection Hthrown as <-.
  split; [reflexivity|]. apply Htext.
Defined.

End EndpointSessions.

Section ConfigurationSessions.
#[local] Existing Instance Sample.runtime.

Lemma token_travels_iff_nonempty_witness :
  Http.getAuthHeaders Sample.fresh !! "Authorization"
  = Some "Bearer test_auth_token" ∧
  (url <$> sockets (getWebSocketConnection Sample.fresh).2 !! 0)
  = Some "ws://localhost:8080/ws?token=test_auth_token".
Proof.
  destruct (token_travels_iff_nonempty Sample.fresh) as (_ & Hwith & _).
  - intros c w Hc. discriminate Hc.
  - destruct (Hwith "test_auth_token" eq_refl) as [Hheader Hurl].
    + discriminate.
    + split; [exact Hheader|exact Hurl].
Defined.

Lemma construction_takes_fields_before_environment_witness :
  Http.new_AIConcert Served.given Served.environment
  = Normal ("http://localhost:8080", Sample.fresh) ∧
  Http.new_AIConcert Served.nothing_given ∅
  = Throw (Error "Missing AICONCERT_API_URL environment variable.").
Proof.
  split.
  - refine (proj1 (construction_takes_fields_before_environment
                     Served.given Served.environment)
              "http://localhost:8080" "ws://localhost:8080/ws" _ _).
    + split; [discriminate|]. by left.
    + split; [discriminate|]. right. split; reflexivity.
  - refine (proj1 (proj2 (construction_takes_fields_before_environment
                            Served.nothing_given ∅)) _).
    intros a [_ [H | [_ H]]]; discriminate H.
Defined.

End ConfigurationSessions.
